(** * BSConv module replacers: a shallow embedding of
      [bsconv/pytorch/replacers.py] and the properties of its rule engine.

    Modelling conventions.
    - A [torch.nn.Module] is a finite tree of objects.  Object identity is
      the field [ident]; an in-place mutation of an object is a new record
      value that keeps the [ident], and an object registered at several
      places occurs at each of them with the same [ident].
    - The child dictionary [_modules] is an association list whose keys are
      unique in a well-formed module ([keys_unique]).  [named_children()]
      and [modules()] go through it in order and yield an object once: they
      keep the set [memo] of the objects already yielded.
    - Filters and transformers are user code.  They may raise, but they do
      not reach the engine or the rest of the tree: they are functions into
      [result].  Every call is recorded in the [trace] of the state.
    - Python floats are binary64 numbers ([spec_float] at precision 53). *)

From Stdlib Require Import List String Ascii ZArith Bool Arith Lia.
From Stdlib Require Import Floats.SpecFloat DecimalString.
Import ListNotations.
Open Scope string_scope.
Open Scope list_scope.

Set Implicit Arguments.
Set Warnings "-register-all".

(** ** Python values *)

(** The values that occur as kernel sizes: integers, tuples and lists. *)
Inductive pyval : Type :=
| PyInt (z : Z)
| PyTuple (items : list pyval)
| PyList (items : list pyval).

(** Python's [==] on these values: a tuple never equals a list. *)
Fixpoint py_eq (a b : pyval) {struct a} : bool :=
  let fix items_eq (xs ys : list pyval) {struct xs} : bool :=
    match xs, ys with
    | [], [] => true
    | x :: xs', y :: ys' => py_eq x y && items_eq xs' ys'
    | _, _ => false
    end in
  match a, b with
  | PyInt x, PyInt y => Z.eqb x y
  | PyTuple xs, PyTuple ys => items_eq xs ys
  | PyList xs, PyList ys => items_eq xs ys
  | _, _ => false
  end.

(** [x in container] for a tuple or list of values. *)
Definition py_in (x : pyval) (container : list pyval) : bool :=
  existsb (py_eq x) container.

(** Exceptions and results of calls that may raise. *)
Inductive exn : Type :=
| TypeError (msg : string)
| AttributeError (attr : string)
| UserError (code : nat).

Inductive result (A : Type) : Type :=
| Ok (a : A)
| Raise (e : exn).
Arguments Ok {A} a.
Arguments Raise {A} e.

(** ** utils *)

Definition forceTwoTuple (x : pyval) : pyval :=
  let x := match x with PyList items => PyTuple items | _ => x end in
  match x with
  | PyTuple _ => x
  | _ => PyTuple [x; x]
  end.

(** ** Loss values and module objects *)

Inductive dtype : Type := float16 | float32 | float64 | int64.

(** What a regularisation loss can be: [None], a Python float, or a
    zero-dimensional tensor with its dtype and device. *)
Inductive loss_value : Type :=
| LossNone
| LossFloat (x : spec_float)
| LossTensor (dt : dtype) (device : string) (x : spec_float).

(** The attributes of a [torch.nn.Conv2d] that this file reads. *)
Record Conv2dAttrs : Type := {
  in_channels : Z;
  out_channels : Z;
  kernel_size : pyval;
  stride : pyval;
  padding : pyval;
  dilation : pyval;
  has_bias : bool;            (* module.bias is not None *)
  padding_mode : string
}.

(** The attributes that the transformers read, on a module that is not a
    [Conv2d]: each may be missing.  [Conv1d] or [ConvTranspose2d] have
    them all. *)
Record OtherAttrs : Type := {
  attr_in_channels : option Z;
  attr_out_channels : option Z;
  attr_kernel_size : option pyval;
  attr_stride : option pyval;
  attr_padding : option pyval;
  attr_dilation : option pyval;
  attr_bias : option bool;      (* Some b: the attribute exists, b = (bias is not None) *)
  attr_padding_mode : option string
}.

(** A value stored in a child dictionary: a module, or some other object. *)
Inductive child_obj (M : Type) : Type :=
| IsModule (m : M)
| NotModule (tag : nat).
Arguments IsModule {M} m.
Arguments NotModule {M} tag.

Inductive nn_module : Type := NnModule {
  ident : nat;                              (* object identity *)
  type_name : string;                       (* type(module).__name__ *)
  conv2d : option Conv2dAttrs;              (* Some iff isinstance(module, Conv2d) *)
  other_attrs : OtherAttrs;                 (* the attributes of another module *)
  _reg_loss : option (result loss_value);   (* outcome of module._reg_loss(), if defined *)
  has_reg_loss : bool;                      (* the method reg_loss has been attached *)
  _modules : list (string * child_obj nn_module)
}.

Definition set_modules (m : nn_module) (l : list (string * child_obj nn_module)) : nn_module :=
  {| ident := ident m; type_name := type_name m; conv2d := conv2d m;
     other_attrs := other_attrs m;
     _reg_loss := _reg_loss m; has_reg_loss := has_reg_loss m; _modules := l |}.

Definition set_has_reg_loss (m : nn_module) (b : bool) : nn_module :=
  {| ident := ident m; type_name := type_name m; conv2d := conv2d m;
     other_attrs := other_attrs m;
     _reg_loss := _reg_loss m; has_reg_loss := b; _modules := _modules m |}.

(** [d[name] = v] on an ordered dictionary: an existing key keeps its
    position, a new key goes to the end. *)
Fixpoint dict_set (name : string) (v : child_obj nn_module)
    (d : list (string * child_obj nn_module)) : list (string * child_obj nn_module) :=
  match d with
  | [] => [(name, v)]
  | (k, c) :: rest =>
      if String.eqb k name then (k, v) :: rest
      else (k, c) :: dict_set name v rest
  end.

(** [setattr(module, child_name, new_child)] for a module value. *)
Definition setattr (m : nn_module) (child_name : string) (new_child : nn_module) : nn_module :=
  set_modules m (dict_set child_name (IsModule new_child) (_modules m)).

(** [module in memo] for a set of objects: membership by identity. *)
Definition seen (m : nn_module) (memo : list nat) : bool :=
  existsb (Nat.eqb (ident m)) memo.

(** [module.named_children()]: the modules of the child dictionary with
    their names, in order; an object already yielded under another name is
    not yielded again, and an entry that is not a module is passed over. *)
Fixpoint yield_children (d : list (string * child_obj nn_module)) (memo : list nat)
  : list (string * nn_module) :=
  match d with
  | [] => []
  | (name, IsModule c) :: rest =>
      if seen c memo then yield_children rest memo
      else (name, c) :: yield_children rest (ident c :: memo)
  | (_, NotModule _) :: rest => yield_children rest memo
  end.

Definition named_children (m : nn_module) : list (string * nn_module) :=
  yield_children (_modules m) [].

(** [module.named_modules(memo)]: the module itself unless it is in [memo],
    then what its children yield, depth first; returns the objects yielded
    and the memo after them. *)
Fixpoint named_modules (m : nn_module) (memo : list nat) : list nn_module * list nat :=
  if seen m memo then ([], memo)
  else
    let '(below, memo) :=
      (fix walk (d : list (string * child_obj nn_module)) (memo : list nat)
         : list nn_module * list nat :=
         match d with
         | [] => ([], memo)
         | (_, IsModule c) :: rest =>
             let '(first, memo) := named_modules c memo in
             let '(others, memo) := walk rest memo in
             (first ++ others, memo)
         | (_, NotModule _) :: rest => walk rest memo
         end) (_modules m) (ident m :: memo) in
    (m :: below, memo).

(** [module.modules()]: every object of the tree once, the module itself
    first. *)
Definition modules (m : nn_module) : list nn_module := fst (named_modules m []).

(** The keys of a child dictionary. *)
Definition keys (d : list (string * child_obj nn_module)) : list string := map fst d.

Fixpoint nodupb (l : list string) : bool :=
  match l with
  | [] => true
  | x :: rest => negb (existsb (String.eqb x) rest) && nodupb rest
  end.

(** Well-formed modules: every child dictionary has unique keys. *)
Fixpoint keys_unique (m : nn_module) : bool :=
  nodupb (keys (_modules m)) &&
  (fix all (d : list (string * child_obj nn_module)) : bool :=
     match d with
     | [] => true
     | (_, IsModule c) :: rest => keys_unique c && all rest
     | (_, NotModule _) :: rest => all rest
     end) (_modules m).

(** ** module filters *)

(** The interface [ModuleFilter]: an object with a class name and the
    method [apply(module, name, full_name)]. *)
Module ModuleFilter.
Record t : Type := {
  type_name : string;
  apply : nn_module -> string -> string -> result bool
}.
End ModuleFilter.

Module ModelFilter.
Definition apply (module : nn_module) (name full_name : string) : result bool :=
  Ok (String.eqb full_name "").

Definition new : ModuleFilter.t :=
  {| ModuleFilter.type_name := "ModelFilter"; ModuleFilter.apply := apply |}.
End ModelFilter.

Module Conv2dFilter.
Record t : Type := { kernel_sizes : option (list pyval) }.

(** [__init__(self, kernel_sizes=None)] *)
Definition __init__ (kernel_sizes : option (list pyval)) : t :=
  {| kernel_sizes :=
       match kernel_sizes with
       | None => None
       | Some l => Some (map forceTwoTuple l)
       end |}.

Definition apply (self : t) (module : nn_module) (name full_name : string) : result bool :=
  match conv2d module with
  | None => Ok false
  | Some conv =>
      match kernel_sizes self with
      | None => Ok true
      | Some allowed =>
          if py_in (kernel_size conv) allowed then Ok true else Ok false
      end
  end.

Definition new (kernel_sizes : option (list pyval)) : ModuleFilter.t :=
  {| ModuleFilter.type_name := "Conv2dFilter";
     ModuleFilter.apply := apply (__init__ kernel_sizes) |}.
End Conv2dFilter.

(** ** module transformers *)

Module ModuleTransformer.
Record t : Type := {
  type_name : string;
  apply : nn_module -> string -> string -> result nn_module
}.
End ModuleTransformer.

(** [module.<name>] for an attribute that may be missing. *)
Definition getattr {A} (name : string) (value : option A) : result A :=
  match value with
  | Some v => Ok v
  | None => Raise (AttributeError name)
  end.

Definition and_then {A B} (r : result A) (k : A -> result B) : result B :=
  match r with
  | Ok a => k a
  | Raise e => Raise e
  end.

(** The keyword arguments that both transformers read from [module], in
    the order in which they are written.  There is no test of the class of
    [module]: any module with these attributes will do. *)
Definition read_conv_attrs (module : nn_module) : result Conv2dAttrs :=
  match conv2d module with
  | Some conv => Ok conv
  | None =>
      let a := other_attrs module in
      and_then (getattr "in_channels" (attr_in_channels a)) (fun in_channels =>
      and_then (getattr "out_channels" (attr_out_channels a)) (fun out_channels =>
      and_then (getattr "kernel_size" (attr_kernel_size a)) (fun kernel_size =>
      and_then (getattr "stride" (attr_stride a)) (fun stride =>
      and_then (getattr "padding" (attr_padding a)) (fun padding =>
      and_then (getattr "dilation" (attr_dilation a)) (fun dilation =>
      and_then (getattr "bias" (attr_bias a)) (fun bias =>
      and_then (getattr "padding_mode" (attr_padding_mode a)) (fun padding_mode =>
      Ok {| in_channels := in_channels; out_channels := out_channels;
            kernel_size := kernel_size; stride := stride; padding := padding;
            dilation := dilation; has_bias := bias;
            padding_mode := padding_mode |}))))))))
  end.

(** The constructors [BSConvU] and [BSConvS] live in [bsconv.pytorch.modules];
    the transformers take them as parameters. *)
Module Conv2dToBSConvUTransformer.
Section WithConstructor.
Variable BSConvU : Conv2dAttrs -> result nn_module.

Definition apply (module : nn_module) (name full_name : string) : result nn_module :=
  and_then (read_conv_attrs module) BSConvU.

Definition new : ModuleTransformer.t :=
  {| ModuleTransformer.type_name := "Conv2dToBSConvUTransformer";
     ModuleTransformer.apply := apply |}.
End WithConstructor.
End Conv2dToBSConvUTransformer.

Module BSConvSTransformer.
Section WithConstructor.
Variables P BnKwargs : Type.
Variable BSConvS : Conv2dAttrs -> P -> bool -> BnKwargs -> result nn_module.

Record t : Type := { p : P; with_bn_relu : bool; bn_kwargs : BnKwargs }.

Definition __init__ (p : P) (with_bn_relu : bool) (bn_kwargs : BnKwargs) : t :=
  {| p := p; with_bn_relu := with_bn_relu; bn_kwargs := bn_kwargs |}.

Definition apply (self : t) (module : nn_module) (name full_name : string)
  : result nn_module :=
  and_then (read_conv_attrs module)
    (fun conv => BSConvS conv (p self) (with_bn_relu self) (bn_kwargs self)).

Definition new (p : P) (with_bn_relu : bool) (bn_kwargs : BnKwargs)
  : ModuleTransformer.t :=
  {| ModuleTransformer.type_name := "BSConvSTransformer";
     ModuleTransformer.apply := apply (__init__ p with_bn_relu bn_kwargs) |}.
End WithConstructor.
End BSConvSTransformer.

Definition float_zero : spec_float := S754_zero false.

(** What an iteration of the loop of [reg_loss] does: [continue], the
    assignment of a fresh tensor on the device of the sub-loss, the
    statement [loss += sub_loss] with its two operands, or an exception. *)
Inductive action : Type :=
| Skip
| Promote (device : string)
| Add (loss sub_loss : loss_value)
| Throw (e : exn).

Module RegularizationMethodTransformer.
Section WithHostArithmetic.
(** [a + b] as the host evaluates it when the operands are not both
    Python floats (tensor arithmetic, or a [TypeError]). *)
Variable host_add : loss_value -> loss_value -> result loss_value.

(** [loss += sub_loss] *)
Definition iadd (loss sub_loss : loss_value) : result loss_value :=
  match loss, sub_loss with
  | LossFloat x, LossFloat y => Ok (LossFloat (SFadd 53 1024 x y))
  | _, _ => host_add loss sub_loss
  end.

(** [sub_loss.device] *)
Definition device_of (v : loss_value) : result string :=
  match v with
  | LossTensor _ device _ => Ok device
  | _ => Raise (AttributeError "device")
  end.

(** The statement that one iteration of the loop of [reg_loss] executes,
    for the accumulator [loss] and a sub-module whose [_reg_loss]
    attribute is [attr]. *)
Definition reg_loss_action (loss : loss_value) (attr : option (result loss_value))
  : action :=
  match attr with
  | None => Skip                               (* no such attribute *)
  | Some (Raise (AttributeError _)) => Skip    (* except AttributeError: continue *)
  | Some (Raise e) => Throw e
  | Some (Ok sub_loss) =>
      match loss with
      | LossNone =>
          match device_of sub_loss with
          | Ok device => Promote device
          | Raise e => Throw e
          end
      | _ => Add loss sub_loss
      end
  end.

Definition reg_loss_step (loss : loss_value) (attr : option (result loss_value))
  : result loss_value :=
  match reg_loss_action loss attr with
  | Skip => Ok loss
  | Promote device => Ok (LossTensor float32 device float_zero)
  | Add loss sub_loss => iadd loss sub_loss
  | Throw e => Raise e
  end.

Fixpoint reg_loss_loop (loss : loss_value) (sub_modules : list nn_module)
  : result loss_value :=
  match sub_modules with
  | [] => Ok loss
  | sub_module :: rest =>
      match reg_loss_step loss (_reg_loss sub_module) with
      | Ok loss' => reg_loss_loop loss' rest
      | Raise e => Raise e
      end
  end.

(** The closure [reg_loss] bound to [module]. *)
Definition reg_loss (module : nn_module) : result loss_value :=
  reg_loss_loop (LossFloat float_zero) (modules module).

(** [module.reg_loss()] as a caller invokes it. *)
Definition call_reg_loss (module : nn_module) : result loss_value :=
  if has_reg_loss module then reg_loss module
  else Raise (AttributeError "reg_loss").
End WithHostArithmetic.

Definition apply (module : nn_module) (name full_name : string) : result nn_module :=
  Ok (set_has_reg_loss module true).

Definition new : ModuleTransformer.t :=
  {| ModuleTransformer.type_name := "RegularizationMethodTransformer";
     ModuleTransformer.apply := apply |}.
End RegularizationMethodTransformer.

(** ** module replacement *)

Module ModuleReplacementRule.
Record t : Type := {
  filter : ModuleFilter.t;
  transformer : ModuleTransformer.t
}.

Definition __init__ (filter_ : ModuleFilter.t) (transformer : ModuleTransformer.t) : t :=
  {| filter := filter_; transformer := transformer |}.
End ModuleReplacementRule.

(** The engine object: its class name, [verbosity] and [rules]. *)
Record ModuleReplacer : Type := {
  class_name : string;
  verbosity : Z;
  rules : list ModuleReplacementRule.t
}.

(** What a run does besides computing: calls of filters and transformers
    (with the position of the rule in [rules]) and printed lines. *)
Inductive event : Type :=
| FilterCall (rule_index : nat) (module : nn_module) (name full_name : string)
| TransformerCall (rule_index : nat) (module : nn_module) (name full_name : string)
| PrintLine (line : string).

Record state : Type := {
  self : ModuleReplacer;
  trace : list event
}.

(** The monad of methods of the engine: state and exceptions. *)
Definition M (A : Type) : Type := state -> result A * state.

Definition ret {A} (a : A) : M A := fun s => (Ok a, s).

Definition bind {A B} (c : M A) (k : A -> M B) : M B :=
  fun s => match c s with
           | (Ok a, s') => k a s'
           | (Raise e, s') => (Raise e, s')
           end.

Definition raise {A} (e : exn) : M A := fun s => (Raise e, s).

Definition lift {A} (r : result A) : M A := fun s => (r, s).

Definition get_self : M ModuleReplacer := fun s => (Ok (self s), s).

Definition set_self (e : ModuleReplacer) : M unit :=
  fun s => (Ok tt, {| self := e; trace := trace s |}).

Definition emit (e : event) : M unit :=
  fun s => (Ok tt, {| self := self s; trace := trace s ++ [e] |}).

Declare Scope monad_scope.
Delimit Scope monad_scope with monad.
Notation "x <- c ;; k" := (bind c (fun x => k))
  (at level 100, c at next level, right associativity) : monad_scope.
Notation "' pat <- c ;; k" := (bind c (fun x => match x with pat => k end))
  (at level 100, pat pattern, c at next level, right associativity) : monad_scope.
Notation "c ;; k" := (bind c (fun _ => k))
  (at level 100, right associativity) : monad_scope.
Open Scope monad_scope.

(** [str(n)] for a count. *)
Definition str_of_nat (n : nat) : string := NilZero.string_of_uint (Nat.to_uint n).

Definition concat_str (l : list string) : string := fold_right String.append "" l.

(** The line printed for one replacement at verbosity 2 and above:
    ["{} replaced '{}': {} => {}"]. *)
Definition replaced_line (self : ModuleReplacer) (full_name old_type_name : string)
    (new_module : nn_module) : string :=
  concat_str
    [class_name self; " replaced '";
     (if String.eqb full_name "" then "(root)" else full_name);
     "': "; old_type_name; " => "; type_name new_module].

(** The summary printed at verbosity 1 and above:
    ["{} replaced a total of {} module{}"]. *)
Definition total_line (self : ModuleReplacer) (total_replaced_count : nat) : string :=
  concat_str
    [class_name self; " replaced a total of ";
     str_of_nat total_replaced_count; " module";
     (if Nat.eqb total_replaced_count 1 then "" else "s")].

(** An argument of [add_rule]: what [isinstance] can tell about it. *)
Inductive pyarg : Type :=
| ArgRule (rule : ModuleReplacementRule.t)
| ArgFilter (filter_ : ModuleFilter.t)
| ArgTransformer (transformer : ModuleTransformer.t)
| ArgOther (tag : nat).

Module ModuleReplacer.
Import ModuleReplacementRule.

Definition __init__ (verbosity : Z) : ModuleReplacer :=
  {| class_name := "ModuleReplacer"; verbosity := verbosity; rules := [] |}.

(** [self.rules.append(rule)] *)
Definition rules_append (rule : ModuleReplacementRule.t) : M unit :=
  self <- get_self ;;
  set_self {| class_name := class_name self;
              verbosity := verbosity self;
              rules := rules self ++ [rule] |}.

Definition add_rule (args : list pyarg) : M unit :=
  match args with
  | [ArgRule rule] => rules_append rule
  | [ArgFilter filter_; ArgTransformer transformer] =>
      rules_append (ModuleReplacementRule.__init__ filter_ transformer)
  | _ =>
      raise (TypeError "Rule must be specified either as instance of ModuleReplacementRule or as pair of ModuleFilter and ModuleTransformer instances")
  end.

(** The loop [for rule in self.rules] of [_apply_rules]; [index] is the
    position of the head of [remaining] in [self.rules]. *)
Fixpoint rules_loop (remaining : list ModuleReplacementRule.t) (index : nat)
    (module : nn_module) (name full_name : string) : M (nat * nn_module) :=
  match remaining with
  | [] => ret (0, module)
  | rule :: rest =>
      emit (FilterCall index module name full_name) ;;
      matched <- lift (ModuleFilter.apply (filter rule) module name full_name) ;;
      if (matched : bool) then
        let old_type_name := type_name module in
        emit (TransformerCall index module name full_name) ;;
        new_module <- lift (ModuleTransformer.apply (transformer rule) module name full_name) ;;
        self <- get_self ;;
        (if (verbosity self >=? 2)%Z then
           emit (PrintLine (replaced_line self full_name old_type_name new_module))
         else ret tt) ;;
        ret (1, new_module)
      else rules_loop rest (S index) module name full_name
  end.

Definition _apply_rules (module : nn_module) (name full_name : string)
  : M (nat * nn_module) :=
  self <- get_self ;;
  rules_loop (rules self) 0 module name full_name.

(** The loop of [_apply_recursively] over [list(module.named_children())];
    [recurse] is [_apply_recursively] itself.  The snapshot is the child
    dictionary [entries] as it was at the call, read through
    [named_children()]: [memo] holds the objects already yielded, an object
    in it is not yielded again, and an entry that is not a module is passed
    over. *)
Definition children_loop
    (recurse : nn_module -> string -> M (nat * nn_module)) (name_prefix : string)
  : list (string * child_obj nn_module) -> list nat -> nat -> nn_module ->
    M (nat * nn_module) :=
  fix loop entries memo replaced_count module :=
    match entries with
    | [] => ret (replaced_count, module)
    | (child_name, NotModule _) :: rest => loop rest memo replaced_count module
    | (child_name, IsModule child) :: rest =>
        if seen child memo then loop rest memo replaced_count module
        else
          let child_full_name := String.append name_prefix child_name in
          '(child_replaced_count, new_child) <- _apply_rules child child_name child_full_name ;;
          '(child_replaced_count, new_child) <-
             (if Nat.eqb child_replaced_count 0 then
                recurse child (String.append (String.append name_prefix child_name) ".")
              else ret (child_replaced_count, new_child)) ;;
          loop rest (ident child :: memo) (replaced_count + child_replaced_count)
               (setattr module child_name new_child)
    end.

Fixpoint _apply_recursively (module : nn_module) (name_prefix : string) {struct module}
  : M (nat * nn_module) :=
  children_loop _apply_recursively name_prefix (_modules module) [] 0 module.

(** The first two statements of [apply]: the counts and the module. *)
Definition apply_counts (module : nn_module) : M (nat * nat * nn_module) :=
  '(root_replaced_count, module) <- _apply_rules module "" "" ;;
  '(replaced_count, module) <- _apply_recursively module "" ;;
  ret (root_replaced_count, replaced_count, module).

Definition apply (module : nn_module) : M nn_module :=
  '(root_replaced_count, replaced_count, module) <- apply_counts module ;;
  self <- get_self ;;
  (if (verbosity self >=? 1)%Z then
     let total_replaced_count := replaced_count + root_replaced_count in
     emit (PrintLine (total_line self total_replaced_count))
   else ret tt) ;;
  ret module.
End ModuleReplacer.

(** ** The two presets *)

Definition default_kernel_sizes : option (list pyval) :=
  Some [PyTuple [PyInt 3; PyInt 3]; PyTuple [PyInt 5; PyInt 5]].

(** Runs a constructor body on a fresh engine object and returns the object. *)
Definition construct (class_name : string) (verbosity : Z) (body : M unit)
  : result ModuleReplacer :=
  let fresh := {| class_name := class_name; verbosity := verbosity; rules := [] |} in
  match body {| self := fresh; trace := [] |} with
  | (Ok _, s) => Ok (self s)
  | (Raise e, _) => Raise e
  end.

Module BSConvU_Replacer.
Section WithConstructor.
Variable BSConvU : Conv2dAttrs -> result nn_module.

Definition __init__ (kernel_sizes : option (list pyval)) (verbosity : Z)
  : result ModuleReplacer :=
  construct "BSConvU_Replacer" verbosity
    (ModuleReplacer.add_rule
       [ArgFilter (Conv2dFilter.new kernel_sizes);
        ArgTransformer (Conv2dToBSConvUTransformer.new BSConvU)]).
End WithConstructor.
End BSConvU_Replacer.

Module BSConvS_Replacer.
Section WithConstructor.
Variables P BnKwargs : Type.
Variable BSConvS : Conv2dAttrs -> P -> bool -> BnKwargs -> result nn_module.

Definition __init__ (kernel_sizes : option (list pyval)) (p : P)
    (with_bn_relu : bool) (bn_kwargs : BnKwargs) (verbosity : Z)
  : result ModuleReplacer :=
  construct "BSConvS_Replacer" verbosity
    (ModuleReplacer.add_rule
       [ArgFilter (Conv2dFilter.new kernel_sizes);
        ArgTransformer (BSConvSTransformer.new BSConvS p with_bn_relu bn_kwargs)] ;;
     ModuleReplacer.add_rule
       [ArgFilter ModelFilter.new;
        ArgTransformer RegularizationMethodTransformer.new]).
End WithConstructor.
End BSConvS_Replacer.


(** ** Vocabulary of the statements *)

(** The state [s] after the events [evs]. *)
Definition log (s : state) (evs : list event) : state :=
  {| self := self s; trace := trace s ++ evs |}.

(** A computation that leaves the engine object alone and only adds to
    the trace. *)
Definition frame_ok {A} (c : M A) : Prop :=
  forall s, exists evs, snd (c s) = log s evs.

(** The filter calls of the rules at positions [first], ..., [first + count - 1]
    on one node, in this order. *)
Definition filter_calls (first count : nat) (module : nn_module) (name full_name : string)
  : list event :=
  map (fun i => FilterCall i module name full_name) (seq first count).

(** What [_apply_rules] prints for a replacement, as events. *)
Definition replaced_events (self : ModuleReplacer) (module : nn_module)
    (full_name : string) (new_module : nn_module) : list event :=
  if (verbosity self >=? 2)%Z
  then [PrintLine (replaced_line self full_name (type_name module) new_module)]
  else [].

(** What [apply] prints at the end, as events. *)
Definition total_events (self : ModuleReplacer) (total : nat) : list event :=
  if (verbosity self >=? 1)%Z then [PrintLine (total_line self total)] else [].

(** The arguments of a call of a filter or transformer. *)
Definition call_args (ev : event) : option (nn_module * string * string) :=
  match ev with
  | FilterCall _ m n fn | TransformerCall _ m n fn => Some (m, n, fn)
  | PrintLine _ => None
  end.

(** The position in [rules] of the rule whose filter or transformer is called. *)
Definition rule_index_of (ev : event) : option nat :=
  match ev with
  | FilterCall i _ _ _ | TransformerCall i _ _ _ => Some i
  | PrintLine _ => None
  end.

Definition is_transformer_call (ev : event) : bool :=
  match ev with TransformerCall _ _ _ _ => true | _ => false end.

(** The number of transformer invocations in a trace. *)
Definition transformer_calls (evs : list event) : nat :=
  List.length (List.filter is_transformer_call evs).

(** The modules below [m] as [named_children()] presents them, level by
    level, with the list of child names that leads to each of them; [path]
    is the list of names that leads to [m]. *)
Fixpoint descendants (m : nn_module) (path : list string)
  : list (list string * nn_module) :=
  (fix walk (d : list (string * child_obj nn_module)) (memo : list nat)
     : list (list string * nn_module) :=
     match d with
     | [] => []
     | (cn, IsModule c) :: rest =>
         if seen c memo then walk rest memo
         else (path ++ [cn], c) :: descendants c (path ++ [cn])
                ++ walk rest (ident c :: memo)
     | (_, NotModule _) :: rest => walk rest memo
     end) (_modules m) [].

(** The dot-joined path. *)
Definition dotted (path : list string) : string := String.concat "." path.

(** The prefix that [_apply_recursively] receives for the node at [path]. *)
Definition prefix_of (path : list string) : string :=
  match path with
  | [] => ""
  | _ => String.append (dotted path) "."
  end.

(** No rule of [rs] matches the node [m] under the names [n] and [fn], and
    no filter raises there. *)
Definition unmatched (rs : list ModuleReplacementRule.t)
    (m : nn_module) (n fn : string) : Prop :=
  forall r, In r rs ->
    ModuleFilter.apply (ModuleReplacementRule.filter r) m n fn = Ok false.

(** A sub-module that contributes nothing to [reg_loss]: it has no
    [_reg_loss], or the call raises [AttributeError]. *)
Definition lacks_reg_loss (m : nn_module) : Prop :=
  _reg_loss m = None \/ exists a, _reg_loss m = Some (Raise (AttributeError a)).



(** The binary64 number 2.5. *)
Definition float_2_5 : spec_float := S754_finite false 5629499534213120 (-51).

(** The binary64 number 0.25, the default of the parameter [p]. *)
Definition float_0_25 : spec_float := S754_finite false 4503599627370496 (-54).

(** The arguments that [add_rule] accepts. *)
Definition valid_rule_args (args : list pyarg) : Prop :=
  (exists rule, args = [ArgRule rule]) \/
  (exists filter_ transformer, args = [ArgFilter filter_; ArgTransformer transformer]).

(** The part of [descendants] that comes from the children [l] of the
    node at [path]. *)
Definition children_descendants (path : list string) (l : list (string * nn_module))
  : list (list string * nn_module) :=
  flat_map (fun entry =>
              (path ++ [fst entry], snd entry)
                :: descendants (snd entry) (path ++ [fst entry])) l.

(** The root and the modules below it, each with its path. *)
Definition tree_nodes (root : nn_module) : list (list string * nn_module) :=
  ([], root) :: descendants root [].

(** The filter calls of [count] rules on the node at a path: the name is the
    last component of the path, the full name the dotted path. *)
Definition node_calls (count : nat) (node : list string * nn_module) : list event :=
  filter_calls 0 count (snd node) (last (fst node) "") (dotted (fst node)).

(** No rule of the engine matches any node of the tree under [root]. *)
Definition no_match (e : ModuleReplacer) (root : nn_module) : Prop :=
  forall p m, In (p, m) (tree_nodes root) ->
    unmatched (rules e) m (last p "") (dotted p).

(** Rules whose filters and transformers never raise: every filter answers,
    and the transformer of a rule answers where its filter matched. *)
Definition never_raise (rs : list ModuleReplacementRule.t) : Prop :=
  forall r, In r rs -> forall m n fn,
    (exists b, ModuleFilter.apply (ModuleReplacementRule.filter r) m n fn = Ok b) /\
    (ModuleFilter.apply (ModuleReplacementRule.filter r) m n fn = Ok true ->
     exists R, ModuleTransformer.apply (ModuleReplacementRule.transformer r) m n fn = Ok R).




(** The objects tested against the rule list, in order: one for each call
    of the filter of the first rule. *)
Definition tested_on (ev : event) : list nat :=
  match ev with
  | FilterCall 0 m _ _ => [ident m]
  | _ => []
  end.

Definition tested_objects (evs : list event) : list nat := flat_map tested_on evs.

(** The objects handed to a transformer, in order. *)
Definition transformed_on (ev : event) : list nat :=
  match ev with
  | TransformerCall _ m _ _ => [ident m]
  | _ => []
  end.

Definition transformed_objects (evs : list event) : list nat :=
  flat_map transformed_on evs.

(** The objects at the nodes of a list. *)
Definition objects (nodes : list (list string * nn_module)) : list nat :=
  map (fun node => ident (snd node)) nodes.

(** [subsequence a l]: [a] is [l] with some elements left out. *)
Inductive subsequence : list nat -> list nat -> Prop :=
| sub_nil : forall l, subsequence [] l
| sub_skip : forall a l x, subsequence a l -> subsequence a (x :: l)
| sub_keep : forall a l x, subsequence a l -> subsequence (x :: a) (x :: l).

(** A computation that leaves the engine object alone and adds to the trace
    events that satisfy [P]. *)
Definition emits {A} (P : list event -> Prop) (c : M A) : Prop :=
  forall s, exists evs, snd (c s) = log s evs /\ P evs.

(** Every call recorded in [evs] is about one of [nodes], under the last
    name of its path and its dotted path. *)
Definition calls_on_nodes (nodes : list (list string * nn_module)) (evs : list event)
  : Prop :=
  forall ev m n fn, In ev evs -> call_args ev = Some (m, n, fn) ->
    exists p, In (p, m) nodes /\ n = last p "" /\ fn = dotted p.

(** [node_at root path m]: following the child names of [path] from [root],
    one by one, through [named_children()], leads to the module [m]. *)
Inductive node_at : nn_module -> list string -> nn_module -> Prop :=
| node_child : forall m cn c,
    In (cn, c) (named_children m) -> node_at m [cn] c
| node_below : forall m cn c p d,
    In (cn, c) (named_children m) -> node_at c p d -> node_at m (cn :: p) d.

(** [b] is the object [a], possibly with other children assigned. *)
Definition same_object (a b : nn_module) : Prop :=
  exists d, b = set_modules a d.

(** A computation that returns normally from every state whose engine is [e]. *)
Definition returns_on {A} (e : ModuleReplacer) (c : M A) : Prop :=
  forall s, self s = e -> exists a, fst (c s) = Ok a.

(** ** Example objects *)

Definition conv_attrs (kh kw : Z) : Conv2dAttrs :=
  {| in_channels := 3; out_channels := 8;
     kernel_size := PyTuple [PyInt kh; PyInt kw];
     stride := PyTuple [PyInt 1; PyInt 1];
     padding := PyTuple [PyInt 1; PyInt 1];
     dilation := PyTuple [PyInt 1; PyInt 1];
     has_bias := true; padding_mode := "zeros" |}.

(** A module without any of the attributes of a convolution. *)
Definition no_attrs : OtherAttrs :=
  {| attr_in_channels := None; attr_out_channels := None; attr_kernel_size := None;
     attr_stride := None; attr_padding := None; attr_dilation := None;
     attr_bias := None; attr_padding_mode := None |}.

(** A [Conv2d] without children. *)
Definition example_conv (ident : nat) (kh kw : Z) : nn_module :=
  {| ident := ident; type_name := "Conv2d"; conv2d := Some (conv_attrs kh kw);
     other_attrs := no_attrs; _reg_loss := None; has_reg_loss := false; _modules := [] |}.

(** A container of the given class with the given children. *)
Definition example_container (ident : nat) (type_name : string)
    (children : list (string * child_obj nn_module)) : nn_module :=
  {| ident := ident; type_name := type_name; conv2d := None;
     other_attrs := no_attrs; _reg_loss := None; has_reg_loss := false; _modules := children |}.

Definition example_conv1 : nn_module := example_conv 3 3 3.

Definition example_block1 : nn_module :=
  example_container 2 "Sequential" [("conv1", IsModule example_conv1)].

(** root -> "block1" -> "conv1", and a 7x7 convolution next to the block. *)
Definition example_net : nn_module :=
  example_container 1 "Net"
    [("block1", IsModule example_block1);
     ("conv7", IsModule (example_conv 4 7 7))].

(** A module with a [_reg_loss] method that returns [v]. *)
Definition example_regularized (ident : nat) (v : loss_value) : nn_module :=
  {| ident := ident; type_name := "BSConvS"; conv2d := None;
     other_attrs := no_attrs; _reg_loss := Some (Ok v); has_reg_loss := false; _modules := [] |}.

(** An engine with the single rule (ModelFilter, RegularizationMethodTransformer). *)
Definition example_root_engine : ModuleReplacer :=
  {| class_name := "ModuleReplacer"; verbosity := 0;
     rules := [ModuleReplacementRule.__init__
                 ModelFilter.new RegularizationMethodTransformer.new] |}.

(** An engine with two rules on 3x3 convolutions; both match [example_conv1]. *)
Definition example_two_rule_engine : ModuleReplacer :=
  {| class_name := "ModuleReplacer"; verbosity := 2;
     rules := [ModuleReplacementRule.__init__
                 (Conv2dFilter.new (Some [PyInt 3]))
                 RegularizationMethodTransformer.new;
               ModuleReplacementRule.__init__
                 (Conv2dFilter.new None)
                 RegularizationMethodTransformer.new] |}.

(** An engine whose only rule looks for 9x9 convolutions. *)
Definition example_idle_engine : ModuleReplacer :=
  {| class_name := "ModuleReplacer"; verbosity := 1;
     rules := [ModuleReplacementRule.__init__
                 (Conv2dFilter.new (Some [PyInt 9]))
                 RegularizationMethodTransformer.new] |}.

(** The state in which a call on engine [e] starts. *)
Definition start (e : ModuleReplacer) : state := {| self := e; trace := [] |}.

(** Stand-ins for the constructors of [bsconv.pytorch.modules]. *)
Definition example_BSConvS (conv : Conv2dAttrs) (p : spec_float) (with_bn_relu : bool)
    (bn_kwargs : unit) : result nn_module :=
  Ok (example_regularized 100 (LossFloat float_2_5)).

(** A host addition that refuses every pair of operands. *)
Definition example_host_add (a b : loss_value) : result loss_value :=
  Raise (TypeError "unsupported operand type(s) for +").



(** A model whose only module with [_reg_loss] is the child "bsconv". *)
Definition example_regularized_net : nn_module :=
  example_container 1 "Net"
    [("stem", IsModule (example_conv 2 7 7));
     ("bsconv", IsModule (example_regularized 3 (LossFloat float_2_5)));
     ("head", IsModule (example_conv 4 1 1))].

(** The rule of [example_root_engine]. *)
Definition example_root_rule : ModuleReplacementRule.t :=
  ModuleReplacementRule.__init__ ModelFilter.new RegularizationMethodTransformer.new.

(** The BSConvS preset with its default arguments and verbosity 1. *)
Definition example_preset : ModuleReplacer :=
  {| class_name := "BSConvS_Replacer"; verbosity := 1;
     rules := [ModuleReplacementRule.__init__
                 (Conv2dFilter.new default_kernel_sizes)
                 (BSConvSTransformer.new example_BSConvS float_0_25 true tt);
               example_root_rule] |}.

Definition example_BSConvU (conv : Conv2dAttrs) : result nn_module :=
  Ok (example_container 101 "BSConvU" []).

(** A model with a 3x3 and a 7x7 convolution at the top level. *)
Definition example_two_convs : nn_module :=
  example_container 1 "Net"
    [("conv3", IsModule (example_conv 2 3 3));
     ("conv7", IsModule (example_conv 3 7 7))].

(** An engine whose only filter raises on every module. *)
Definition example_raising_engine : ModuleReplacer :=
  {| class_name := "ModuleReplacer"; verbosity := 2;
     rules := [ModuleReplacementRule.__init__
                 {| ModuleFilter.type_name := "Broken";
                    ModuleFilter.apply := fun _ _ _ => Raise (UserError 1) |}
                 RegularizationMethodTransformer.new] |}.

(** ** Further vocabulary *)

(** The attributes of a module that is not a [Conv2d], when all those that
    the transformers read are there. *)
Definition complete_attrs (a : OtherAttrs) : option Conv2dAttrs :=
  match attr_in_channels a, attr_out_channels a, attr_kernel_size a, attr_stride a,
        attr_padding a, attr_dilation a, attr_bias a, attr_padding_mode a with
  | Some in_channels, Some out_channels, Some kernel_size, Some stride,
    Some padding, Some dilation, Some bias, Some padding_mode =>
      Some {| in_channels := in_channels; out_channels := out_channels;
              kernel_size := kernel_size; stride := stride; padding := padding;
              dilation := dilation; has_bias := bias; padding_mode := padding_mode |}
  | _, _, _, _, _, _, _, _ => None
  end.

(** A [ConvTranspose2d]: not a [Conv2d], with all the attributes. *)
Definition example_conv_transpose (ident : nat) : nn_module :=
  {| ident := ident; type_name := "ConvTranspose2d"; conv2d := None;
     other_attrs :=
       {| attr_in_channels := Some 3%Z; attr_out_channels := Some 8%Z;
          attr_kernel_size := Some (PyTuple [PyInt 3; PyInt 3]);
          attr_stride := Some (PyTuple [PyInt 1; PyInt 1]);
          attr_padding := Some (PyTuple [PyInt 1; PyInt 1]);
          attr_dilation := Some (PyTuple [PyInt 1; PyInt 1]);
          attr_bias := Some true; attr_padding_mode := Some "zeros" |};
     _reg_loss := None; has_reg_loss := false; _modules := [] |}.

(** The normalised allowlist of a filter built from [kernel_sizes]. *)
Definition normalised (kernel_sizes : list pyval) : list pyval :=
  map forceTwoTuple kernel_sizes.

(** The Python floats that the modules of a list contribute, in order. *)
Fixpoint float_losses (l : list nn_module) : list spec_float :=
  match l with
  | [] => []
  | m :: rest =>
      match _reg_loss m with
      | Some (Ok (LossFloat y)) => y :: float_losses rest
      | _ => float_losses rest
      end
  end.

(** A module that contributes a Python float to [reg_loss], or nothing. *)
Definition float_or_nothing (m : nn_module) : Prop :=
  lacks_reg_loss m \/ exists y, _reg_loss m = Some (Ok (LossFloat y)).

Definition is_attribute_error (e : exn) : bool :=
  match e with AttributeError _ => true | _ => false end.

(** A module whose [_reg_loss] raises [e]. *)
Definition example_failing (ident : nat) (e : exn) : nn_module :=
  {| ident := ident; type_name := "Broken"; conv2d := None;
     other_attrs := no_attrs; _reg_loss := Some (Raise e); has_reg_loss := false; _modules := [] |}.

(** A model with two float contributions, and one with a failing module
    after the first contribution. *)
Definition example_two_losses : nn_module :=
  example_container 1 "Net"
    [("a", IsModule (example_regularized 2 (LossFloat float_2_5)));
     ("skip", IsModule (example_conv 3 3 3));
     ("b", IsModule (example_regularized 4 (LossFloat float_0_25)))].

Definition example_failing_net : nn_module :=
  example_container 1 "Net"
    [("a", IsModule (example_regularized 2 (LossFloat float_2_5)));
     ("bad", IsModule (example_failing 3 (UserError 7)));
     ("b", IsModule (example_regularized 4 (LossFloat float_0_25)))].

(** A model in which one module with a [_reg_loss] is registered under two
    names. *)
Definition example_registered_twice : nn_module :=
  example_container 1 "Net"
    [("a", IsModule (example_regularized 2 (LossFloat float_2_5)));
     ("again", IsModule (example_regularized 2 (LossFloat float_2_5)))].

(** The binary64 number 2.75. *)
Definition float_2_75 : spec_float := S754_finite false 6192449487634432 (-51).

(** The rule that a call [add_rule] on the arguments [args] appends, if the arguments are
    accepted. *)
Definition rule_of_args (args : list pyarg) : option ModuleReplacementRule.t :=
  match args with
  | [ArgRule rule] => Some rule
  | [ArgFilter filter_; ArgTransformer transformer] =>
      Some (ModuleReplacementRule.__init__ filter_ transformer)
  | _ => None
  end.

(** Successive calls of [add_rule], one per element of [calls]. *)
Fixpoint add_each (calls : list (list pyarg)) : M unit :=
  match calls with
  | [] => ret tt
  | args :: rest => ModuleReplacer.add_rule args ;; add_each rest
  end.

(** The state [s] with the rule list of its engine replaced by [l]. *)
Definition with_rules (s : state) (l : list ModuleReplacementRule.t) : state :=
  {| self := {| class_name := class_name (self s);
                verbosity := verbosity (self s);
                rules := l |};
     trace := trace s |}.

Definition is_print (ev : event) : bool :=
  match ev with PrintLine _ => true | _ => false end.

(** The calls of filters and transformers in a trace, without the printed
    lines. *)
Definition calls_only (evs : list event) : list event :=
  List.filter (fun ev => negb (is_print ev)) evs.

(** The number of printed lines in a trace. *)
Definition prints (evs : list event) : nat :=
  List.length (List.filter is_print evs).

(** Two computations that, from states with the same rule list, return the
    same result and make the same calls. *)
Definition agree {A} (c1 c2 : M A) : Prop :=
  forall s1 s2, rules (self s1) = rules (self s2) ->
    fst (c1 s1) = fst (c2 s2) /\
    exists e1 e2,
      snd (c1 s1) = log s1 e1 /\ snd (c2 s2) = log s2 e2 /\
      calls_only e1 = calls_only e2.

(** A computation that leaves the engine object alone and adds to the trace
    events that satisfy [P] for the engine. *)
Definition emits_on {A} (P : ModuleReplacer -> list event -> Prop) (c : M A) : Prop :=
  forall s, exists evs, snd (c s) = log s evs /\ P (self s) evs.

(** The call of the transformer of rule [i] on a node is justified: the
    filter of that rule accepted the node and the filters of all earlier
    rules rejected it. *)
Definition justified (rs : list ModuleReplacementRule.t) (i : nat)
    (m : nn_module) (n fn : string) : Prop :=
  exists r, nth_error rs i = Some r /\
    ModuleFilter.apply (ModuleReplacementRule.filter r) m n fn = Ok true /\
    forall j r', j < i -> nth_error rs j = Some r' ->
      ModuleFilter.apply (ModuleReplacementRule.filter r') m n fn = Ok false.

(** Every transformer call of a trace is justified. *)
Definition transformer_calls_justified (e : ModuleReplacer) (evs : list event) : Prop :=
  forall i m n fn, In (TransformerCall i m n fn) evs -> justified (rules e) i m n fn.

(** Nothing is printed by an engine whose verbosity is below [level]. *)
Definition silent_below (level : Z) (e : ModuleReplacer) (evs : list event) : Prop :=
  (verbosity e < level)%Z -> prints evs = 0.




(** A model in which two blocks hold the same 3x3 convolution. *)
Definition example_shared_blocks : nn_module :=
  example_container 1 "Net"
    [("a", IsModule (example_container 2 "Sequential"
                       [("conv", IsModule (example_conv 4 3 3))]));
     ("b", IsModule (example_container 3 "Sequential"
                       [("conv", IsModule (example_conv 4 3 3))]))].

(** A transformer that returns a new module with the module it was given
    as its child "inner", and an engine that applies it to the root and
    has a second rule for convolutions. *)
Definition example_wrapper : ModuleTransformer.t :=
  {| ModuleTransformer.type_name := "Wrapper";
     ModuleTransformer.apply := fun module _ _ =>
       Ok (example_container 9 "Wrapped" [("inner", IsModule module)]) |}.

Definition example_wrapping_engine : ModuleReplacer :=
  {| class_name := "ModuleReplacer"; verbosity := 0;
     rules := [ModuleReplacementRule.__init__ ModelFilter.new example_wrapper;
               ModuleReplacementRule.__init__
                 (Conv2dFilter.new None) RegularizationMethodTransformer.new] |}.

(** The BSConvU preset with its default allowlist, silent. *)
Definition example_bsconvu_engine : ModuleReplacer :=
  {| class_name := "BSConvU_Replacer"; verbosity := 0;
     rules := [ModuleReplacementRule.__init__
                 (Conv2dFilter.new default_kernel_sizes)
                 (Conv2dToBSConvUTransformer.new example_BSConvU)] |}.

(** The rules of [example_idle_engine] in a silent engine of another class. *)
Definition example_quiet_engine : ModuleReplacer :=
  {| class_name := "Quiet"; verbosity := 0; rules := rules example_idle_engine |}.
(** * Properties *)

Unset Implicit Arguments.

(** ** Induction on module trees *)

Section nn_module_induction.
Variable P : nn_module -> Prop.
Hypothesis step :
    forall m, (forall cn c, In (cn, IsModule c) (_modules m) -> P c) -> P m.

Lemma nn_module_tree_ind : forall m, P m.
Proof.
    fix IH 1. intros [i tn cv oa rl hr d]. apply step. simpl.
    induction d as [|[k [c'|t]] rest IHd]; simpl; intros cn c H.
    - contradiction.
    - destruct H as [H|H].
      + injection H as _ Hc. rewrite <- Hc. apply IH.
      + exact (IHd cn c H).
    - destruct H as [H|H].
      + discriminate H.
      + exact (IHd cn c H).
Qed.
End nn_module_induction.

(** ** Strings and dictionaries *)

Lemma append_assoc : forall a b c : string,
  String.append (String.append a b) c = String.append a (String.append b c).
Proof.
  induction a as [|ch a IH]; intros b c; simpl.
  - reflexivity.
  - now rewrite IH.
Qed.

Lemma existsb_eqb_false : forall (k : string) (l : list string),
  existsb (String.eqb k) l = false -> ~ In k l.
Proof.
  induction l as [|x l IH]; simpl; intros H Hin.
  - exact Hin.
  - apply Bool.orb_false_iff in H. destruct H as [Hx Hl].
    destruct Hin as [->|Hin].
    + rewrite String.eqb_refl in Hx. discriminate.
    + exact (IH Hl Hin).
Qed.

(** Assigning to a key the value it already holds changes nothing. *)
Lemma dict_set_same : forall (d : list (string * child_obj nn_module)) k v,
  nodupb (keys d) = true -> In (k, v) d -> dict_set k v d = d.
Proof.
  induction d as [|[k0 c0] rest IH]; simpl; intros k v Hnd Hin.
  - contradiction.
  - apply Bool.andb_true_iff in Hnd. destruct Hnd as [Hfresh Hnd].
    apply Bool.negb_true_iff in Hfresh.
    destruct Hin as [Heq|Hin].
    + injection Heq as -> ->. now rewrite String.eqb_refl.
    + destruct (String.eqb_spec k0 k) as [->|Hne].
      * exfalso. apply (existsb_eqb_false _ _ Hfresh).
        unfold keys. change k with (fst (k, v)). now apply in_map.
      * now rewrite (IH k v Hnd Hin).
Qed.

Lemma set_modules_same : forall m, set_modules m (_modules m) = m.
Proof. now intros []. Qed.

(** ** The monad *)

Lemma log_nil : forall s, log s [] = s.
Proof. intros [e t]. unfold log. simpl. now rewrite app_nil_r. Qed.

Lemma log_log : forall s a b, log (log s a) b = log s (a ++ b).
Proof. intros s a b. unfold log. simpl. now rewrite app_assoc. Qed.

Lemma emit_log : forall ev s, emit ev s = (Ok tt, log s [ev]).
Proof. reflexivity. Qed.

Lemma frame_ret : forall A (a : A), frame_ok (ret a).
Proof. intros A a s. exists []. simpl. now rewrite log_nil. Qed.

Lemma frame_raise : forall A e, frame_ok (@raise A e).
Proof. intros A e s. exists []. simpl. now rewrite log_nil. Qed.

Lemma frame_lift : forall A (r : result A), frame_ok (lift r).
Proof. intros A r s. exists []. simpl. now rewrite log_nil. Qed.

Lemma frame_get_self : frame_ok get_self.
Proof. intros s. exists []. simpl. now rewrite log_nil. Qed.

Lemma frame_emit : forall ev, frame_ok (emit ev).
Proof. intros ev s. now exists [ev]. Qed.

Lemma frame_bind : forall A B (c : M A) (k : A -> M B),
  frame_ok c -> (forall a, frame_ok (k a)) -> frame_ok (bind c k).
Proof.
  intros A B c k Hc Hk s. destruct (Hc s) as [e1 H1]. unfold bind.
  destruct (c s) as [[a|e] s1]; simpl in H1; subst s1.
  - destruct (Hk a (log s e1)) as [e2 H2]. exists (e1 ++ e2).
    now rewrite H2, log_log.
  - now exists e1.
Qed.

Create HintDb frame.
#[local] Hint Resolve frame_ret frame_raise frame_lift frame_get_self frame_emit : frame.

Ltac frame_step :=
  repeat first
    [ apply frame_bind; [| intros ? ]
    | match goal with |- frame_ok (match ?x with _ => _ end) => destruct x end
    | solve [ auto with frame ] ].

Lemma frame_rules_loop : forall rs i m n fn,
  frame_ok (ModuleReplacer.rules_loop rs i m n fn).
Proof.
  induction rs as [|r rs IH]; intros i m n fn; simpl.
  - auto with frame.
  - frame_step.
Qed.

Lemma frame_apply_rules : forall m n fn, frame_ok (ModuleReplacer._apply_rules m n fn).
Proof.
  intros. unfold ModuleReplacer._apply_rules. frame_step. apply frame_rules_loop.
Qed.

Lemma frame_children_loop : forall recurse prefix d,
  (forall cn c, In (cn, IsModule c) d -> forall p, frame_ok (recurse c p)) ->
  forall memo count m,
    frame_ok (ModuleReplacer.children_loop recurse prefix d memo count m).
Proof.
  induction d as [|[cn [c|t]] rest IH]; intros Hrec memo count m; simpl.
  - auto with frame.
  - assert (Hrest : forall cn' c', In (cn', IsModule c') rest ->
                      forall p, frame_ok (recurse c' p)).
    { intros cn' c' H. apply (Hrec cn' c'). now right. }
    destruct (seen c memo); [now apply IH|].
    apply frame_bind; [apply frame_apply_rules|]. intros [c1 m1].
    apply frame_bind.
    + destruct (Nat.eqb c1 0); [|auto with frame].
      apply (Hrec cn c). now left.
    + intros [c2 m2]. now apply IH.
  - apply IH. intros cn' c' H. apply (Hrec cn' c'). now right.
Qed.

Lemma apply_recursively_eq : forall m prefix,
  ModuleReplacer._apply_recursively m prefix =
  ModuleReplacer.children_loop ModuleReplacer._apply_recursively prefix
    (_modules m) [] 0 m.
Proof. now intros []. Qed.

Lemma frame_apply_recursively : forall m prefix,
  frame_ok (ModuleReplacer._apply_recursively m prefix).
Proof.
  induction m as [m IH] using nn_module_tree_ind. intros prefix.
  rewrite apply_recursively_eq. apply frame_children_loop. exact IH.
Qed.

Lemma frame_apply_counts : forall m, frame_ok (ModuleReplacer.apply_counts m).
Proof.
  intros m. unfold ModuleReplacer.apply_counts.
  apply frame_bind; [apply frame_apply_rules|]. intros [c1 m1].
  apply frame_bind; [apply frame_apply_recursively|]. intros [c2 m2].
  auto with frame.
Qed.

Lemma frame_apply : forall m, frame_ok (ModuleReplacer.apply m).
Proof.
  intros m. unfold ModuleReplacer.apply.
  apply frame_bind; [apply frame_apply_counts|]. intros [[c1 c2] m2].
  frame_step.
Qed.

(** ** The engine object is not modified by [apply] *)

(** C10. For every engine and every root module, [apply] leaves the engine
    unchanged, whether it returns or propagates an exception of a filter or
    transformer: the rules and the verbosity after the call are those before
    it, so a second [apply] runs with the same rule list. *)
Theorem apply_preserves_engine : forall (root : nn_module) (s : state),
  let s' := snd (ModuleReplacer.apply root s) in
  self s' = self s /\
  rules (self s') = rules (self s) /\
  verbosity (self s') = verbosity (self s) /\
  forall root2, rules (self (snd (ModuleReplacer.apply root2 s'))) = rules (self s).
Proof.
  intros root s s'.
  assert (H : self s' = self s).
  { unfold s'. destruct (frame_apply root s) as [evs ->]. reflexivity. }
  repeat split; try now rewrite H.
  intros root2. destruct (frame_apply root2 s') as [evs ->]. simpl. now rewrite H.
Qed.

(** ** [add_rule] *)

Lemma valid_rule_args_dec : forall args,
  valid_rule_args args \/ ~ valid_rule_args args.
Proof.
  intros args. unfold valid_rule_args.
  destruct args as [|a [|b [|c rest]]].
  - right. intros [[r H]|[f [t H]]]; discriminate.
  - destruct a as [r|f|t|n]; [left; left; now exists r | | |];
      right; intros [[r H]|[f' [t' H]]]; discriminate.
  - destruct a as [r|f|t|n]; try (right; intros [[r' H]|[f' [t' H]]]; discriminate).
    destruct b as [r|f'|t|n]; try (right; intros [[r' H]|[f'' [t' H]]]; discriminate).
    left; right. now exists f, t.
  - right. intros [[r H]|[f [t H]]]; discriminate.
Qed.

(** C8. [add_rule] raises (a [TypeError]) exactly when its arguments are
    neither one rule nor a filter followed by a transformer; when it raises
    the engine is unchanged, and when it succeeds exactly one rule has been
    appended at the end of the rule list. *)
Theorem add_rule_spec : forall (args : list pyarg) (s : state),
  let outcome := ModuleReplacer.add_rule args s in
  ((exists e, fst outcome = Raise e) <-> ~ valid_rule_args args) /\
  (forall e, fst outcome = Raise e ->
     snd outcome = s /\ exists msg, e = TypeError msg) /\
  (fst outcome = Ok tt ->
     exists rule,
       rules (self (snd outcome)) = rules (self s) ++ [rule] /\
       verbosity (self (snd outcome)) = verbosity (self s) /\
       class_name (self (snd outcome)) = class_name (self s) /\
       trace (snd outcome) = trace s /\
       (args = [ArgRule rule] \/
        exists filter_ transformer,
          args = [ArgFilter filter_; ArgTransformer transformer] /\
          rule = ModuleReplacementRule.__init__ filter_ transformer)).
Proof.
  intros args s outcome. unfold outcome.
  destruct (valid_rule_args_dec args) as [Hv|Hv].
  - assert (Hok : exists rule,
        ModuleReplacer.add_rule args s =
          (Ok tt, {| self := {| class_name := class_name (self s);
                                verbosity := verbosity (self s);
                                rules := rules (self s) ++ [rule] |};
                     trace := trace s |}) /\
        (args = [ArgRule rule] \/
         exists f t, args = [ArgFilter f; ArgTransformer t] /\
                     rule = ModuleReplacementRule.__init__ f t)).
    { destruct Hv as [[r ->]|[f [t ->]]].
      - exists r. split; [reflexivity | now left].
      - exists (ModuleReplacementRule.__init__ f t). split; [reflexivity|].
        right. now exists f, t. }
    destruct Hok as [rule [Heq Hshape]]. rewrite Heq. simpl.
    split; [split|split].
    + intros [e He]. discriminate.
    + intros Hn. contradiction.
    + intros e He. discriminate.
    + intros _. exists rule. repeat split; try reflexivity. exact Hshape.
  - assert (Herr : exists msg, ModuleReplacer.add_rule args s = (Raise (TypeError msg), s)).
    { unfold valid_rule_args in Hv.
      destruct args as [|a [|b [|c rest]]]; try (eexists; reflexivity).
      - destruct a; try (eexists; reflexivity).
        exfalso. apply Hv. left. eexists; reflexivity.
      - destruct a; try (eexists; reflexivity).
        destruct b; try (eexists; reflexivity).
        exfalso. apply Hv. right. do 2 eexists; reflexivity.
      - destruct a; try (eexists; reflexivity).
        destruct b; eexists; reflexivity. }
    destruct Herr as [msg Heq]. rewrite Heq. simpl.
    split; [split|split].
    + intros _. exact Hv.
    + intros _. eexists; reflexivity.
    + intros e He. injection He as <-. split; [reflexivity | now exists msg].
    + discriminate.
Qed.

(** ** The rule loop *)

Lemma filter_calls_cons : forall i k m n fn,
  filter_calls i (S k) m n fn = FilterCall i m n fn :: filter_calls (S i) k m n fn.
Proof. reflexivity. Qed.

Lemma unmatched_cons : forall r rs m n fn,
  unmatched (r :: rs) m n fn ->
  ModuleFilter.apply (ModuleReplacementRule.filter r) m n fn = Ok false /\
  unmatched rs m n fn.
Proof.
  intros r rs m n fn H. split.
  - apply H. now left.
  - intros r' Hr'. apply H. now right.
Qed.

(** When no rule matches, every filter is called once, in order, and the
    module comes back with count 0. *)
Lemma rules_loop_unmatched : forall rs i m n fn s,
  unmatched rs m n fn ->
  ModuleReplacer.rules_loop rs i m n fn s =
    (Ok (0, m), log s (filter_calls i (List.length rs) m n fn)).
Proof.
  induction rs as [|r rs IH]; intros i m n fn s H; simpl.
  - unfold ret. now rewrite log_nil.
  - apply unmatched_cons in H. destruct H as [Hr Hrs].
    unfold bind at 1. rewrite emit_log.
    unfold bind at 1. unfold lift. rewrite Hr.
    rewrite (IH (S i) m n fn _ Hrs), log_log. reflexivity.
Qed.

(** What the loop does from the first rule whose filter answers [true]. *)
Lemma rules_loop_head_match : forall r post i m n fn s,
  ModuleFilter.apply (ModuleReplacementRule.filter r) m n fn = Ok true ->
  ModuleReplacer.rules_loop (r :: post) i m n fn s =
    match ModuleTransformer.apply (ModuleReplacementRule.transformer r) m n fn with
    | Ok R =>
        (Ok (1, R),
         log s ([FilterCall i m n fn; TransformerCall i m n fn]
                ++ replaced_events (self s) m fn R))
    | Raise e =>
        (Raise e, log s [FilterCall i m n fn; TransformerCall i m n fn])
    end.
Proof.
  intros r post i m n fn s Hf. simpl.
  unfold bind at 1. rewrite emit_log.
  unfold bind at 1. unfold lift. rewrite Hf.
  unfold bind at 1. rewrite emit_log, log_log. simpl app.
  unfold bind at 1.
  destruct (ModuleTransformer.apply (ModuleReplacementRule.transformer r) m n fn) as [R|e].
  - unfold bind at 1. unfold get_self. simpl self.
    unfold replaced_events.
    destruct (verbosity (self s) >=? 2)%Z.
    + unfold bind, emit, ret, log. simpl. now rewrite <- app_assoc.
    + reflexivity.
  - reflexivity.
Qed.

Lemma rules_loop_skip : forall pre rest i m n fn s,
  unmatched pre m n fn ->
  ModuleReplacer.rules_loop (pre ++ rest) i m n fn s =
  ModuleReplacer.rules_loop rest (i + List.length pre) m n fn
    (log s (filter_calls i (List.length pre) m n fn)).
Proof.
  induction pre as [|r pre IH]; intros rest i m n fn s H; simpl.
  - now rewrite Nat.add_0_r, log_nil.
  - apply unmatched_cons in H. destruct H as [Hr Hpre].
    unfold bind at 1. rewrite emit_log.
    unfold bind at 1. unfold lift. rewrite Hr.
    rewrite (IH rest (S i) m n fn _ Hpre), log_log.
    now rewrite Nat.add_succ_r.
Qed.

(** First match wins: the filters before the first matching rule are called,
    then its filter and its transformer, and nothing after that. *)
Lemma rules_loop_first_match : forall pre r post i m n fn s R,
  unmatched pre m n fn ->
  ModuleFilter.apply (ModuleReplacementRule.filter r) m n fn = Ok true ->
  ModuleTransformer.apply (ModuleReplacementRule.transformer r) m n fn = Ok R ->
  ModuleReplacer.rules_loop (pre ++ r :: post) i m n fn s =
    (Ok (1, R),
     log s (filter_calls i (S (List.length pre)) m n fn
            ++ [TransformerCall (i + List.length pre) m n fn]
            ++ replaced_events (self s) m fn R)).
Proof.
  intros pre r post i m n fn s R Hpre Hf Ht.
  rewrite (rules_loop_skip _ _ _ _ _ _ _ Hpre), (rules_loop_head_match _ _ _ _ _ _ _ Hf), Ht.
  rewrite log_log. f_equal. f_equal. simpl self.
  unfold filter_calls. rewrite seq_S, map_app. simpl.
  now rewrite <- app_assoc.
Qed.

Lemma apply_rules_eq : forall m n fn s,
  ModuleReplacer._apply_rules m n fn s =
  ModuleReplacer.rules_loop (rules (self s)) 0 m n fn s.
Proof. reflexivity. Qed.

(** ** Counting transformer calls *)

Lemma transformer_calls_app : forall a b,
  transformer_calls (a ++ b) = transformer_calls a + transformer_calls b.
Proof.
  intros a b. unfold transformer_calls.
  now rewrite filter_app, length_app.
Qed.

Lemma transformer_calls_cons : forall ev evs,
  transformer_calls (ev :: evs) =
  (if is_transformer_call ev then 1 else 0) + transformer_calls evs.
Proof.
  intros ev evs. unfold transformer_calls. simpl.
  now destruct (is_transformer_call ev).
Qed.

Lemma transformer_calls_filter_calls : forall i k m n fn,
  transformer_calls (filter_calls i k m n fn) = 0.
Proof.
  intros i k; revert i. induction k as [|k IH]; intros i m n fn.
  - reflexivity.
  - rewrite filter_calls_cons. unfold transformer_calls in *. simpl. apply IH.
Qed.

Lemma transformer_calls_replaced_events : forall e m fn R,
  transformer_calls (replaced_events e m fn R) = 0.
Proof.
  intros e m fn R. unfold replaced_events.
  now destruct (verbosity e >=? 2)%Z.
Qed.

Lemma rule_index_filter_calls : forall i k m n fn ev j,
  In ev (filter_calls i k m n fn) -> rule_index_of ev = Some j -> i <= j < i + k.
Proof.
  intros i k m n fn ev j Hin Hj. unfold filter_calls in Hin.
  apply in_map_iff in Hin. destruct Hin as [x [<- Hx]].
  apply in_seq in Hx. simpl in Hj. injection Hj as <-. exact Hx.
Qed.

Lemma rule_index_replaced_events : forall e m fn R ev,
  In ev (replaced_events e m fn R) -> rule_index_of ev = None /\ call_args ev = None.
Proof.
  intros e m fn R ev. unfold replaced_events.
  destruct (verbosity e >=? 2)%Z; simpl; [intros [<-|[]]|intros []]. now split.
Qed.

(** Whatever the rules do, one run of the rule loop calls at most one
    transformer, only talks about the node it was given, and returns as
    count the number of transformer calls it made. *)
Lemma rules_loop_bound : forall rs i m n fn s,
  exists evs,
    snd (ModuleReplacer.rules_loop rs i m n fn s) = log s evs /\
    transformer_calls evs <= 1 /\
    (forall c R, fst (ModuleReplacer.rules_loop rs i m n fn s) = Ok (c, R) ->
       c = transformer_calls evs /\ (c = 0 -> R = m)) /\
    (forall ev, In ev evs -> call_args ev = Some (m, n, fn) \/ call_args ev = None).
Proof.
  induction rs as [|r rs IH]; intros i m n fn s.
  - exists []. simpl. rewrite log_nil.
    split; [reflexivity|]. split; [unfold transformer_calls; simpl; lia|].
    split.
    + intros c R H. injection H as <- <-. now split.
    + intros ev [].
  - destruct (ModuleFilter.apply (ModuleReplacementRule.filter r) m n fn) as [[|]|e] eqn:Hf.
    + rewrite (rules_loop_head_match _ _ _ _ _ _ _ Hf).
      destruct (ModuleTransformer.apply (ModuleReplacementRule.transformer r) m n fn)
        as [R|e].
      * eexists. simpl fst; simpl snd. split; [reflexivity|]. simpl app.
        rewrite !transformer_calls_cons, transformer_calls_replaced_events.
        split; [simpl; lia|]. split.
        -- intros c R' H. injection H as <- <-. split; [reflexivity | discriminate].
        -- intros ev [<-|[<-|Hin]]; [now left | now left |].
           right. now apply rule_index_replaced_events in Hin.
      * eexists. simpl fst; simpl snd. split; [reflexivity|].
        split; [unfold transformer_calls; simpl; lia|]. split; [discriminate|].
        intros ev [<-|[<-|[]]]; now left.
    + assert (Hstep : ModuleReplacer.rules_loop (r :: rs) i m n fn s =
                      ModuleReplacer.rules_loop rs (S i) m n fn (log s [FilterCall i m n fn])).
      { simpl. unfold bind at 1. rewrite emit_log. unfold bind at 1. unfold lift.
        now rewrite Hf. }
      rewrite Hstep.
      destruct (IH (S i) m n fn (log s [FilterCall i m n fn])) as [evs [H1 [H2 [H3 H4]]]].
      exists (FilterCall i m n fn :: evs). rewrite H1, log_log. simpl app.
      split; [reflexivity|]. split; [exact H2|]. split; [exact H3|].
      intros ev [<-|Hin]; [now left | now apply H4].
    + exists [FilterCall i m n fn].
      assert (Hstep : ModuleReplacer.rules_loop (r :: rs) i m n fn s =
                      (Raise e, log s [FilterCall i m n fn])).
      { simpl. unfold bind at 1. rewrite emit_log. unfold bind at 1. unfold lift.
        now rewrite Hf. }
      rewrite Hstep. simpl. split; [reflexivity|].
      split; [unfold transformer_calls; simpl; lia|].
      split; [discriminate|]. intros ev [<-|[]]. now left.
Qed.

(** ** First match wins *)

(** The first of two matching rules: the trace of [_apply_rules] and its
    result when the earlier rule is the first one that matches. *)
Lemma first_of_two_matches :
  forall (s : state) (m : nn_module) (n fn : string)
         (pre : list ModuleReplacementRule.t) (r1 : ModuleReplacementRule.t)
         (mid : list ModuleReplacementRule.t) (r2 : ModuleReplacementRule.t)
         (post : list ModuleReplacementRule.t),
    rules (self s) = pre ++ r1 :: mid ++ r2 :: post ->
    unmatched pre m n fn ->
    ModuleFilter.apply (ModuleReplacementRule.filter r1) m n fn = Ok true ->
    ModuleFilter.apply (ModuleReplacementRule.filter r2) m n fn = Ok true ->
    let outcome := ModuleReplacer._apply_rules m n fn s in
    let i1 := List.length pre in
    let i2 := List.length pre + 1 + List.length mid in
    let transformed :=
      ModuleTransformer.apply (ModuleReplacementRule.transformer r1) m n fn in
    exists evs,
      snd outcome = log s evs /\
      evs = filter_calls 0 (S i1) m n fn ++ [TransformerCall i1 m n fn]
            ++ match transformed with
               | Ok R => replaced_events (self s) m fn R
               | Raise _ => []
               end /\
      fst outcome = match transformed with
                    | Ok R => Ok (1, R)
                    | Raise e => Raise e
                    end /\
      transformer_calls evs = 1 /\
      (forall ev, In ev evs -> rule_index_of ev <> Some i2) /\
      (forall ev j, In ev evs -> rule_index_of ev = Some j -> j <= i1) /\
      (forall ev, In ev evs -> is_transformer_call ev = true ->
         ev = TransformerCall i1 m n fn).
Proof.
  intros s m n fn pre r1 mid r2 post Hrules Hpre Hf1 Hf2 outcome i1 i2 transformed.
  assert (Hidx : forall evs' ev j,
             (forall ev, In ev evs' -> rule_index_of ev = None) ->
             In ev (filter_calls 0 (S i1) m n fn ++ [TransformerCall i1 m n fn] ++ evs') ->
             rule_index_of ev = Some j -> j <= i1).
  { intros evs' ev j Hnone Hin Hj.
    apply in_app_or in Hin. destruct Hin as [Hin|[<-|Hin]].
    - pose proof (rule_index_filter_calls _ _ _ _ _ _ _ Hin Hj). lia.
    - simpl in Hj. injection Hj as <-. lia.
    - rewrite (Hnone _ Hin) in Hj. discriminate. }
  assert (Htc : forall evs' ev,
             (forall ev, In ev evs' -> is_transformer_call ev = false) ->
             In ev (filter_calls 0 (S i1) m n fn ++ [TransformerCall i1 m n fn] ++ evs') ->
             is_transformer_call ev = true -> ev = TransformerCall i1 m n fn).
  { intros evs' ev Hnone Hin Ht.
    apply in_app_or in Hin. destruct Hin as [Hin|[<-|Hin]].
    - unfold filter_calls in Hin. apply in_map_iff in Hin.
      destruct Hin as [x [<- _]]. discriminate.
    - reflexivity.
    - rewrite (Hnone _ Hin) in Ht. discriminate. }
  unfold outcome. rewrite apply_rules_eq, Hrules.
  rewrite (rules_loop_skip _ _ _ _ _ _ _ Hpre), (rules_loop_head_match _ _ _ _ _ _ _ Hf1).
  fold transformed. fold i1. simpl (0 + i1).
  assert (Hfc : filter_calls 0 i1 m n fn ++ [FilterCall i1 m n fn]
                = filter_calls 0 (S i1) m n fn).
  { unfold filter_calls. rewrite seq_S, map_app. reflexivity. }
  destruct transformed as [R|e].
  - exists (filter_calls 0 (S i1) m n fn ++ [TransformerCall i1 m n fn]
            ++ replaced_events (self s) m fn R).
    split.
    { simpl fst; simpl snd. rewrite log_log. rewrite <- Hfc, <- !app_assoc.
      reflexivity. }
    split; [reflexivity|]. split; [reflexivity|].
    split.
    { rewrite !transformer_calls_app, transformer_calls_filter_calls,
        transformer_calls_replaced_events. reflexivity. }
    assert (Hnone : forall ev, In ev (replaced_events (self s) m fn R) ->
                      rule_index_of ev = None).
    { intros ev Hin. now apply rule_index_replaced_events in Hin. }
    split; [|split].
    + intros ev Hin Hi2. pose proof (Hidx _ _ _ Hnone Hin Hi2). unfold i2 in *. lia.
    + intros ev j. apply Hidx. exact Hnone.
    + intros ev. apply Htc. intros ev' Hin'. unfold replaced_events in Hin'.
      destruct (verbosity (self s) >=? 2)%Z; simpl in Hin'; [|contradiction].
      destruct Hin' as [<-|[]]. reflexivity.
  - exists (filter_calls 0 (S i1) m n fn ++ [TransformerCall i1 m n fn] ++ []).
    split.
    { simpl fst; simpl snd. rewrite log_log. rewrite <- Hfc, <- !app_assoc.
      reflexivity. }
    split; [reflexivity|]. split; [reflexivity|].
    split.
    { rewrite !transformer_calls_app, transformer_calls_filter_calls. reflexivity. }
    split; [|split].
    + intros ev Hin Hi2.
      assert (Hle : i2 <= i1) by (apply (Hidx [] ev); [intros ? []| |]; assumption).
      unfold i2 in Hle. lia.
    + intros ev j. apply Hidx. intros ? [].
    + intros ev. apply Htc. intros ? [].
Qed.

(** ** Paths *)

Lemma in_yield_children : forall d memo cn c,
  In (cn, c) (yield_children d memo) -> In (cn, IsModule c) d.
Proof.
  induction d as [|[k [c'|t]] rest IH]; simpl; intros memo cn c H.
  - contradiction.
  - destruct (seen c' memo).
    + right. exact (IH _ _ _ H).
    + destruct H as [H|H].
      * injection H as -> ->. now left.
      * right. exact (IH _ _ _ H).
  - right. exact (IH _ _ _ H).
Qed.

Lemma in_named_children : forall m cn c,
  In (cn, c) (named_children m) -> In (cn, IsModule c) (_modules m).
Proof. intros m cn c. apply in_yield_children. Qed.

Lemma descendants_eq : forall m path,
  descendants m path = children_descendants path (named_children m).
Proof.
  intros [i tn cv oa rl hr d] path. unfold named_children, children_descendants.
  simpl. generalize (@nil nat).
  induction d as [|[cn [c|t]] rest IH]; intros memo; simpl.
  - reflexivity.
  - destruct (seen c memo); [apply IH|]. simpl. now rewrite IH.
  - apply IH.
Qed.

Lemma dotted_snoc : forall path cn,
  dotted (path ++ [cn]) = String.append (prefix_of path) cn.
Proof.
  induction path as [|a path IH]; intros cn.
  - reflexivity.
  - destruct path as [|b path].
    + simpl. now rewrite append_assoc.
    + change (dotted ((a :: b :: path) ++ [cn]))
        with (String.append a (String.append "." (dotted ((b :: path) ++ [cn])))).
      rewrite IH.
      change (prefix_of (a :: b :: path))
        with (String.append
                (String.append a (String.append "." (dotted (b :: path)))) ".").
      change (prefix_of (b :: path)) with (String.append (dotted (b :: path)) ".").
      now rewrite !append_assoc.
Qed.

Lemma prefix_of_snoc : forall path cn,
  prefix_of (path ++ [cn]) = String.append (String.append (prefix_of path) cn) ".".
Proof.
  intros path cn. rewrite <- dotted_snoc. unfold prefix_of.
  destruct (path ++ [cn]) eqn:E; [|reflexivity].
  now destruct path.
Qed.

Lemma last_snoc : forall (path : list string) cn, last (path ++ [cn]) "" = cn.
Proof. intros. apply last_last. Qed.

(** ** A pass in which nothing matches *)

Lemma keys_unique_eq : forall m,
  keys_unique m = true ->
  nodupb (keys (_modules m)) = true /\
  forall cn c, In (cn, IsModule c) (_modules m) -> keys_unique c = true.
Proof.
  intros [i tn cv oa rl hr d]. simpl. intros H.
  apply Bool.andb_true_iff in H. destruct H as [Hnd Hall]. split; [exact Hnd|].
  clear Hnd. induction d as [|[k [c'|t]] rest IH]; simpl; intros cn c Hin.
  - contradiction.
  - apply Bool.andb_true_iff in Hall. destruct Hall as [Hc Hrest].
    destruct Hin as [Heq|Hin].
    + injection Heq as _ <-. exact Hc.
    + exact (IH Hrest cn c Hin).
  - destruct Hin as [Heq|Hin]; [discriminate|]. exact (IH Hall cn c Hin).
Qed.

Lemma setattr_same : forall m cn c,
  nodupb (keys (_modules m)) = true ->
  In (cn, IsModule c) (_modules m) -> setattr m cn c = m.
Proof.
  intros m cn c Hnd Hin. unfold setattr.
  rewrite (dict_set_same _ _ _ Hnd Hin). apply set_modules_same.
Qed.

Lemma children_loop_unmatched : forall recurse path m k d memo s,
  nodupb (keys (_modules m)) = true ->
  k = List.length (rules (self s)) ->
  (forall cn c, In (cn, IsModule c) d -> In (cn, IsModule c) (_modules m)) ->
  (forall p c, In (p, c) (children_descendants path (yield_children d memo)) ->
     unmatched (rules (self s)) c (last p "") (dotted p)) ->
  (forall cn c s', In (cn, c) (yield_children d memo) -> self s' = self s ->
     recurse c (prefix_of (path ++ [cn])) s' =
       (Ok (0, c), log s' (flat_map (node_calls k) (descendants c (path ++ [cn]))))) ->
  ModuleReplacer.children_loop recurse (prefix_of path) d memo 0 m s =
    (Ok (0, m),
     log s (flat_map (node_calls k) (children_descendants path (yield_children d memo)))).
Proof.
  intros recurse path m k d. induction d as [|[cn [c|t]] rest IH];
    intros memo s Hnd Hk Hsub Hun Hrec.
  - simpl. unfold ret. now rewrite log_nil.
  - assert (Hrest : forall cn' c', In (cn', IsModule c') rest ->
                      In (cn', IsModule c') (_modules m)).
    { intros cn' c' Hin. apply Hsub. now right. }
    simpl in Hun, Hrec |- *. destruct (seen c memo).
    { now apply IH. }
    assert (Hc : unmatched (rules (self s)) c cn (String.append (prefix_of path) cn)).
    { rewrite <- dotted_snoc, <- (last_snoc path cn) at 1.
      apply (Hun (path ++ [cn]) c). simpl. now left. }
    unfold bind at 1. rewrite apply_rules_eq, (rules_loop_unmatched _ _ _ _ _ _ Hc).
    simpl Nat.eqb. cbv iota.
    unfold bind at 1. rewrite <- prefix_of_snoc.
    rewrite Hrec; [| now left | reflexivity].
    rewrite (setattr_same _ _ _ Hnd (Hsub cn c (or_introl eq_refl))).
    simpl Nat.add. rewrite IH; try assumption.
    + rewrite !log_log. f_equal. f_equal. rewrite <- Hk.
      unfold children_descendants. simpl flat_map. simpl fst. simpl snd.
      unfold node_calls at 3. simpl fst. simpl snd.
      rewrite last_snoc, dotted_snoc, flat_map_app. reflexivity.
    + intros p c' Hin. apply Hun. simpl. right. apply in_or_app. now right.
    + intros cn' c' s' Hin Hs'. apply Hrec; [now right | exact Hs'].
  - simpl in Hun, Hrec |- *. apply IH; try assumption.
    intros cn' c' Hin. apply Hsub. now right.
Qed.

Lemma apply_recursively_unmatched : forall m path s,
  keys_unique m = true ->
  (forall p c, In (p, c) (descendants m path) ->
     unmatched (rules (self s)) c (last p "") (dotted p)) ->
  ModuleReplacer._apply_recursively m (prefix_of path) s =
    (Ok (0, m),
     log s (flat_map (node_calls (List.length (rules (self s)))) (descendants m path))).
Proof.
  induction m as [m IH] using nn_module_tree_ind. intros path s Hwf Hun.
  apply keys_unique_eq in Hwf. destruct Hwf as [Hnd Hch].
  rewrite apply_recursively_eq, descendants_eq.
  apply children_loop_unmatched; auto.
  - intros p c Hin. apply Hun. now rewrite descendants_eq.
  - intros cn c s' Hin Hs'.
    pose proof (in_yield_children _ _ _ _ Hin) as Hin0.
    rewrite (IH cn c Hin0 (path ++ [cn]) s' (Hch cn c Hin0)).
    + now rewrite Hs'.
    + intros p c' Hin'. rewrite Hs'. apply Hun. rewrite descendants_eq.
      unfold children_descendants. apply in_flat_map.
      exists (cn, c). split; [exact Hin|]. now right.
Qed.

Lemma apply_counts_unmatched : forall root s,
  keys_unique root = true ->
  no_match (self s) root ->
  ModuleReplacer.apply_counts root s =
    (Ok (0, 0, root),
     log s (flat_map (node_calls (List.length (rules (self s)))) (tree_nodes root))).
Proof.
  intros root s Hwf Hno. unfold ModuleReplacer.apply_counts.
  assert (Hroot : unmatched (rules (self s)) root "" "").
  { apply (Hno [] root). now left. }
  unfold bind at 1. rewrite apply_rules_eq, (rules_loop_unmatched _ _ _ _ _ _ Hroot).
  unfold bind at 1.
  change "" with (prefix_of []) at 3.
  rewrite (apply_recursively_unmatched root [] _ Hwf).
  - unfold ret. rewrite log_log. reflexivity.
  - intros p c Hin. apply (Hno p c). now right.
Qed.

Lemma apply_unmatched : forall root s,
  keys_unique root = true ->
  no_match (self s) root ->
  ModuleReplacer.apply root s =
    (Ok root,
     log s (flat_map (node_calls (List.length (rules (self s)))) (tree_nodes root)
            ++ total_events (self s) 0)).
Proof.
  intros root s Hwf Hno. unfold ModuleReplacer.apply. unfold bind at 1.
  rewrite (apply_counts_unmatched root s Hwf Hno).
  unfold bind at 1. unfold get_self. simpl self. unfold total_events.
  destruct (verbosity (self s) >=? 1)%Z.
  - unfold bind, emit, ret. simpl. unfold log. simpl. now rewrite <- app_assoc.
  - unfold bind, ret. simpl. now rewrite app_nil_r.
Qed.

(** C4. A pass in which no rule matches any node of the tree changes
    nothing: [apply] returns the very tree it was given, every position
    holding the same module, and the replacement counts are 0.  The trace
    shows each node tested once by every filter. *)
Theorem no_match_pass_is_identity : forall (root : nn_module) (s : state),
  keys_unique root = true ->
  no_match (self s) root ->
  let tested :=
    flat_map (node_calls (List.length (rules (self s)))) (tree_nodes root) in
  ModuleReplacer.apply_counts root s = (Ok (0, 0, root), log s tested) /\
  ModuleReplacer.apply root s = (Ok root, log s (tested ++ total_events (self s) 0)) /\
  transformer_calls tested = 0.
Proof.
  intros root s Hwf Hno tested.
  pose proof (apply_counts_unmatched root s Hwf Hno) as Hc. fold tested in Hc.
  split; [exact Hc|]. split.
  - unfold ModuleReplacer.apply. unfold bind at 1. rewrite Hc.
    unfold bind at 1. unfold get_self. simpl self. unfold total_events.
    destruct (verbosity (self s) >=? 1)%Z.
    + unfold bind, emit, ret. simpl. unfold log. simpl. now rewrite <- app_assoc.
    + unfold bind, ret. simpl. now rewrite app_nil_r.
  - unfold tested. generalize (tree_nodes root). intros l.
    induction l as [|x l IH]; simpl; [reflexivity|].
    rewrite transformer_calls_app. unfold node_calls at 1.
    now rewrite transformer_calls_filter_calls.
Qed.

(** ** The names and paths passed to filters and transformers *)

Lemma emits_ret : forall A (P : list event -> Prop) (a : A), P [] -> emits P (ret a).
Proof. intros A P a H s. exists []. simpl. now rewrite log_nil. Qed.

Lemma emits_weaken : forall A (P Q : list event -> Prop) (c : M A),
  (forall evs, P evs -> Q evs) -> emits P c -> emits Q c.
Proof.
  intros A P Q c HPQ Hc s. destruct (Hc s) as [evs [H1 H2]].
  exists evs. split; [exact H1 | now apply HPQ].
Qed.

Lemma emits_bind : forall A B (P : list event -> Prop) (c : M A) (k : A -> M B),
  (forall a b, P a -> P b -> P (a ++ b)) ->
  emits P c -> (forall a, emits P (k a)) -> emits P (bind c k).
Proof.
  intros A B P c k Happ Hc Hk s. destruct (Hc s) as [e1 [H1 P1]]. unfold bind.
  destruct (c s) as [[a|e] s1]; simpl in H1; subst s1.
  - destruct (Hk a (log s e1)) as [e2 [H2 P2]]. exists (e1 ++ e2).
    rewrite H2, log_log. split; [reflexivity | now apply Happ].
  - now exists e1.
Qed.

Lemma calls_on_nodes_nil : forall nodes, calls_on_nodes nodes [].
Proof. intros nodes ev m n fn []. Qed.

Lemma calls_on_nodes_app : forall nodes a b,
  calls_on_nodes nodes a -> calls_on_nodes nodes b -> calls_on_nodes nodes (a ++ b).
Proof.
  intros nodes a b Ha Hb ev m n fn Hin Hargs.
  apply in_app_or in Hin. destruct Hin as [Hin|Hin]; eauto.
Qed.

Lemma calls_on_nodes_incl : forall nodes nodes' evs,
  incl nodes nodes' -> calls_on_nodes nodes evs -> calls_on_nodes nodes' evs.
Proof.
  intros nodes nodes' evs Hincl H ev m n fn Hin Hargs.
  destruct (H ev m n fn Hin Hargs) as [p [Hp Hrest]].
  exists p. split; [now apply Hincl | exact Hrest].
Qed.

Lemma apply_rules_paths : forall p m,
  emits (calls_on_nodes [(p, m)])
        (ModuleReplacer._apply_rules m (last p "") (dotted p)).
Proof.
  intros p m s. rewrite apply_rules_eq.
  destruct (rules_loop_bound (rules (self s)) 0 m (last p "") (dotted p) s)
    as [evs [H1 [_ [_ H4]]]].
  exists evs. split; [exact H1|].
  intros ev m' n fn Hin Hargs. destruct (H4 ev Hin) as [H|H]; rewrite H in Hargs.
  - injection Hargs as <- <- <-. exists p. split; [now left | now split].
  - discriminate.
Qed.

Lemma children_loop_paths : forall recurse path d,
  (forall cn c, In (cn, IsModule c) d ->
     emits (calls_on_nodes (descendants c (path ++ [cn])))
           (recurse c (prefix_of (path ++ [cn])))) ->
  forall memo count m,
    emits (calls_on_nodes (children_descendants path (yield_children d memo)))
          (ModuleReplacer.children_loop recurse (prefix_of path) d memo count m).
Proof.
  intros recurse path d. induction d as [|[cn [c|t]] rest IH]; intros Hrec memo count m.
  - apply emits_ret. apply calls_on_nodes_nil.
  - simpl ModuleReplacer.children_loop. simpl yield_children.
    destruct (seen c memo).
    { apply IH. intros cn' c' Hin. apply (Hrec cn' c'). now right. }
    set (nodes := children_descendants path
                    ((cn, c) :: yield_children rest (ident c :: memo))).
    assert (Hhere : In (path ++ [cn], c) nodes) by now left.
    assert (Hbelow : incl (descendants c (path ++ [cn])) nodes).
    { intros x Hx. right. apply in_or_app. now left. }
    assert (Hrest : incl (children_descendants path
                            (yield_children rest (ident c :: memo))) nodes).
    { intros x Hx. right. apply in_or_app. now right. }
    apply emits_bind; [apply calls_on_nodes_app| |].
    + rewrite <- dotted_snoc. rewrite <- (last_snoc path cn) at 1.
      eapply emits_weaken; [|apply apply_rules_paths].
      intros evs. apply calls_on_nodes_incl. intros x [<-|[]]. exact Hhere.
    + intros [c1 m1]. apply emits_bind; [apply calls_on_nodes_app| |].
      * destruct (Nat.eqb c1 0).
        -- rewrite <- prefix_of_snoc.
           eapply emits_weaken; [|apply (Hrec cn c); now left].
           intros evs. now apply calls_on_nodes_incl.
        -- apply emits_ret. apply calls_on_nodes_nil.
      * intros [c2 m2].
        eapply emits_weaken; [|apply IH].
        -- intros evs. now apply calls_on_nodes_incl.
        -- intros cn' c' Hin. apply (Hrec cn' c'). now right.
  - simpl ModuleReplacer.children_loop. apply IH.
    intros cn' c' Hin. apply (Hrec cn' c'). now right.
Qed.

Lemma apply_recursively_paths : forall m path,
  emits (calls_on_nodes (descendants m path))
        (ModuleReplacer._apply_recursively m (prefix_of path)).
Proof.
  induction m as [m IH] using nn_module_tree_ind. intros path.
  rewrite apply_recursively_eq, descendants_eq.
  apply children_loop_paths. intros cn c Hin. exact (IH cn c Hin (path ++ [cn])).
Qed.

Lemma in_children_descendants : forall path l p m,
  In (p, m) (children_descendants path l) <->
  exists cn c, In (cn, c) l /\
    ((p, m) = (path ++ [cn], c) \/ In (p, m) (descendants c (path ++ [cn]))).
Proof.
  intros path l p m. unfold children_descendants. rewrite in_flat_map. split.
  - intros [[cn c] [Hin Hx]].
    exists cn, c. split; [exact Hin|].
    destruct Hx as [Hx|Hx]; [left; now symmetry | now right].
  - intros [cn [c [Hin Hx]]]. exists (cn, c). split; [exact Hin|].
    destruct Hx as [Hx|Hx]; [left; now symmetry | now right].
Qed.

Lemma descendants_node_at : forall root path p m,
  In (p, m) (descendants root path) -> exists q, p = path ++ q /\ node_at root q m.
Proof.
  induction root as [root IH] using nn_module_tree_ind. intros path p m Hin.
  rewrite descendants_eq in Hin. apply in_children_descendants in Hin.
  destruct Hin as [cn [c [Hc [Heq|Hbelow]]]].
  - injection Heq as -> ->. exists [cn]. split; [reflexivity | now apply node_child].
  - destruct (IH cn c (in_named_children _ _ _ Hc) _ _ _ Hbelow) as [q [-> Hq]].
    exists (cn :: q). split; [now rewrite <- app_assoc | now apply node_below with c].
Qed.

Lemma node_at_descendants : forall root q m,
  node_at root q m -> forall path, In (path ++ q, m) (descendants root path).
Proof.
  induction 1 as [root cn c Hc | root cn c q d Hc Hq IH]; intros path;
    rewrite descendants_eq; apply in_children_descendants; exists cn, c;
    (split; [exact Hc|]).
  - now left.
  - right. specialize (IH (path ++ [cn])). now rewrite <- app_assoc in IH.
Qed.

Lemma apply_paths : forall root s,
  exists evs,
    snd (ModuleReplacer.apply root s) = log s evs /\
    forall ev m n fn, In ev evs -> call_args ev = Some (m, n, fn) ->
      (m = root /\ n = "" /\ fn = "") \/
      exists c R p,
        fst (ModuleReplacer._apply_rules root "" "" s) = Ok (c, R) /\
        node_at R p m /\ n = last p "" /\ fn = dotted p.
Proof.
  intros root s.
  destruct (apply_rules_paths [] root s) as [e1 [H1 P1]].
  simpl last in H1. change (dotted []) with "" in H1.
  assert (Q1 : forall ev m n fn, In ev e1 -> call_args ev = Some (m, n, fn) ->
                 m = root /\ n = "" /\ fn = "").
  { intros ev m n fn Hin Hargs. destruct (P1 ev m n fn Hin Hargs) as [p [[Hp|[]] [-> ->]]].
    injection Hp as <- <-. now repeat split. }
  unfold ModuleReplacer.apply, ModuleReplacer.apply_counts.
  unfold bind at 1. unfold bind at 1.
  destruct (ModuleReplacer._apply_rules root "" "" s) as [[[c R]|e] s1] eqn:E1;
    simpl in H1; subst s1.
  - destruct (apply_recursively_paths R [] (log s e1)) as [e2 [H2 P2]].
    change (prefix_of []) with "" in H2.
    assert (Q2 : forall ev m n fn, In ev e2 -> call_args ev = Some (m, n, fn) ->
                 exists p, node_at R p m /\ n = last p "" /\ fn = dotted p).
    { intros ev m n fn Hin Hargs. destruct (P2 ev m n fn Hin Hargs) as [p [Hp Hrest]].
      apply descendants_node_at in Hp. destruct Hp as [q [-> Hq]].
      now exists q. }
    unfold bind at 1.
    destruct (ModuleReplacer._apply_recursively R "" (log s e1)) as [[[c2 m2]|e] s2];
      simpl in H2; subst s2.
    + unfold ret at 1. unfold bind at 1. unfold get_self.
      exists (e1 ++ e2 ++ total_events (self s) (c2 + c)).
      unfold total_events. simpl self.
      destruct (verbosity (self s) >=? 1)%Z.
      * split.
        { unfold bind, emit, ret. simpl. unfold log. simpl.
          now rewrite <- !app_assoc. }
        intros ev m n fn Hin Hargs.
        apply in_app_or in Hin. destruct Hin as [Hin|Hin]; [left; eauto|].
        apply in_app_or in Hin. destruct Hin as [Hin|[<-|[]]]; [|discriminate].
        right. destruct (Q2 ev m n fn Hin Hargs) as [p Hp]. now exists c, R, p.
      * split.
        { unfold bind, ret. simpl. unfold log. simpl.
          now rewrite app_nil_r, <- !app_assoc. }
        intros ev m n fn Hin Hargs. rewrite app_nil_r in Hin.
        apply in_app_or in Hin. destruct Hin as [Hin|Hin]; [left; eauto|].
        right. destruct (Q2 ev m n fn Hin Hargs) as [p Hp]. now exists c, R, p.
    + exists (e1 ++ e2). simpl. rewrite log_log. split; [reflexivity|].
      intros ev m n fn Hin Hargs.
      apply in_app_or in Hin. destruct Hin as [Hin|Hin]; [left; eauto|].
      right. destruct (Q2 ev m n fn Hin Hargs) as [p Hp]. now exists c, R, p.
  - exists e1. simpl. split; [reflexivity|].
    intros ev m n fn Hin Hargs. left. eauto.
Qed.

Lemma in_node_calls_first : forall k node,
  k <> 0 ->
  In (FilterCall 0 (snd node) (last (fst node) "") (dotted (fst node))) (node_calls k node).
Proof.
  intros k node Hk. unfold node_calls, filter_calls.
  apply in_map_iff. exists 0. split; [reflexivity|]. apply in_seq. lia.
Qed.

(** C5. The names passed to filters and transformers.  Every call that
    [apply] makes is either on the root, with the empty name and the empty
    path, or on a module reached from the tree that [_apply_recursively]
    walks by a non-empty list of child names, with the last of these names
    as name and their dot-joined sequence as full name.  When no rule
    matches, every node of the tree is indeed tested under these names.  A
    direct child is passed its bare name, and the node reached through
    "block1" and "conv1" is passed "block1.conv1". *)
Theorem path_correctness : forall (root : nn_module) (s : state),
  (exists evs,
     snd (ModuleReplacer.apply root s) = log s evs /\
     forall ev m n fn, In ev evs -> call_args ev = Some (m, n, fn) ->
       (m = root /\ n = "" /\ fn = "") \/
       exists c R p,
         fst (ModuleReplacer._apply_rules root "" "" s) = Ok (c, R) /\
         node_at R p m /\ n = last p "" /\ fn = dotted p) /\
  (keys_unique root = true -> no_match (self s) root -> rules (self s) <> [] ->
   forall p m, (p = [] /\ m = root) \/ node_at root p m ->
     In (FilterCall 0 m (last p "") (dotted p))
        (trace (snd (ModuleReplacer.apply root s)))) /\
  dotted [] = "" /\
  (forall cn, dotted [cn] = cn) /\
  dotted ["block1"; "conv1"] = "block1.conv1".
Proof.
  intros root s. split; [apply apply_paths|]. split; [|now repeat split].
  intros Hwf Hno Hrules p m Hnode.
  pose proof (apply_unmatched root s Hwf Hno) as Happly.
  rewrite Happly. unfold snd, log, trace.
  apply in_or_app. right. apply in_or_app. left.
  apply in_flat_map. exists (p, m). split.
  - destruct Hnode as [[-> ->]|Hnode]; [now left|].
    right. exact (node_at_descendants _ _ _ Hnode []).
  - apply (in_node_calls_first _ (p, m)).
    destruct (rules (self s)); [contradiction | discriminate].
Qed.

(** ** One test for each position *)

Lemma subsequence_refl : forall l, subsequence l l.
Proof. induction l; constructor; assumption. Qed.

Lemma subsequence_app : forall a l b l',
  subsequence a l -> subsequence b l' -> subsequence (a ++ b) (l ++ l').
Proof.
  intros a l b l' H Hb. induction H as [l|a l x _ IH|a l x _ IH]; simpl.
  - induction l as [|x l IH]; simpl; [exact Hb | now constructor].
  - now constructor.
  - now constructor.
Qed.

Lemma subsequence_app_l : forall a l l', subsequence a l -> subsequence a (l ++ l').
Proof.
  intros a l l' H. rewrite <- (app_nil_r a). apply subsequence_app; [exact H|constructor].
Qed.

Lemma subsequence_in : forall a l x, subsequence a l -> In x a -> In x l.
Proof.
  intros a l x H. induction H as [l|a l y _ IH|a l y _ IH]; intros Hin.
  - contradiction.
  - right. now apply IH.
  - destruct Hin as [->|Hin]; [now left | right; now apply IH].
Qed.

Lemma subsequence_NoDup : forall a l, subsequence a l -> NoDup l -> NoDup a.
Proof.
  intros a l H. induction H as [l|a l y _ IH|a l y Hsub IH]; intros Hnd.
  - constructor.
  - apply IH. now inversion Hnd.
  - inversion Hnd as [|? ? Hy Hl]; subst. constructor; [|now apply IH].
    intros Hin. apply Hy. exact (subsequence_in _ _ _ Hsub Hin).
Qed.

Lemma emits_seq : forall A B (P Q R : list event -> Prop) (c : M A) (k : A -> M B),
  (forall x, P x -> R x) ->
  (forall x y, P x -> Q y -> R (x ++ y)) ->
  emits P c -> (forall a, emits Q (k a)) -> emits R (bind c k).
Proof.
  intros A B P Q R c k Hstop Hgo Hc Hk s. destruct (Hc s) as [e1 [H1 P1]]. unfold bind.
  destruct (c s) as [[a|e] s1]; simpl in H1; subst s1.
  - destruct (Hk a (log s e1)) as [e2 [H2 Q2]]. exists (e1 ++ e2).
    rewrite H2, log_log. split; [reflexivity | now apply Hgo].
  - exists e1. split; [reflexivity | now apply Hstop].
Qed.

Lemma objects_app : forall a b, objects (a ++ b) = objects a ++ objects b.
Proof. intros a b. unfold objects. apply map_app. Qed.

(** One run of the rule loop tests the node it was given once, when it
    starts at the first rule, and hands it to a transformer at most once. *)
Lemma rules_loop_once : forall rs i m n fn s,
  exists evs,
    snd (ModuleReplacer.rules_loop rs i m n fn s) = log s evs /\
    subsequence (tested_objects evs) (if Nat.eqb i 0 then [ident m] else []) /\
    subsequence (transformed_objects evs) [ident m].
Proof.
  induction rs as [|r rs IH]; intros i m n fn s.
  - exists []. simpl. rewrite log_nil. repeat split; constructor.
  - destruct (ModuleFilter.apply (ModuleReplacementRule.filter r) m n fn) as [[|]|e] eqn:Hf.
    + rewrite (rules_loop_head_match _ _ _ _ _ _ _ Hf).
      assert (Hprint : forall R,
                tested_objects (replaced_events (self s) m fn R) = [] /\
                transformed_objects (replaced_events (self s) m fn R) = []).
      { intros R. unfold replaced_events.
        destruct (verbosity (self s) >=? 2)%Z; now split. }
      assert (Htest : subsequence (tested_on (FilterCall i m n fn))
                        (if Nat.eqb i 0 then [ident m] else [])).
      { destruct i; simpl; [apply subsequence_refl | constructor]. }
      destruct (ModuleTransformer.apply (ModuleReplacementRule.transformer r) m n fn)
        as [R|e].
      * eexists. simpl fst; simpl snd. split; [reflexivity|].
        destruct (Hprint R) as [Hp1 Hp2].
        unfold tested_objects, transformed_objects in *. simpl flat_map.
        rewrite Hp1, Hp2, !app_nil_r. split; [exact Htest | apply subsequence_refl].
      * eexists. simpl fst; simpl snd. split; [reflexivity|].
        unfold tested_objects, transformed_objects. simpl flat_map.
        rewrite !app_nil_r. split; [exact Htest | apply subsequence_refl].
    + assert (Hstep : ModuleReplacer.rules_loop (r :: rs) i m n fn s =
                      ModuleReplacer.rules_loop rs (S i) m n fn (log s [FilterCall i m n fn])).
      { simpl. unfold bind at 1. rewrite emit_log. unfold bind at 1. unfold lift.
        now rewrite Hf. }
      rewrite Hstep.
      destruct (IH (S i) m n fn (log s [FilterCall i m n fn])) as [evs [H1 [H2 H3]]].
      exists (FilterCall i m n fn :: evs). rewrite H1, log_log. simpl app.
      split; [reflexivity|]. split; [|exact H3].
      simpl Nat.eqb in H2. inversion H2 as [l Hnil| |].
      unfold tested_objects in *. simpl flat_map. rewrite <- Hnil, app_nil_r.
      destruct i; simpl; [apply subsequence_refl | constructor].
    + exists [FilterCall i m n fn].
      assert (Hstep : ModuleReplacer.rules_loop (r :: rs) i m n fn s =
                      (Raise e, log s [FilterCall i m n fn])).
      { simpl. unfold bind at 1. rewrite emit_log. unfold bind at 1. unfold lift.
        now rewrite Hf. }
      rewrite Hstep. simpl snd. split; [reflexivity|]. split; [|constructor].
      unfold tested_objects. simpl flat_map. rewrite app_nil_r.
      destruct i; simpl; [apply subsequence_refl | constructor].
Qed.

Section OncePerPosition.
Variable pick : event -> list nat.
Hypothesis pick_rules : forall m n fn,
  emits (fun evs => subsequence (flat_map pick evs) [ident m])
        (ModuleReplacer._apply_rules m n fn).
Hypothesis pick_print : forall line, pick (PrintLine line) = [].

Lemma once_children_loop : forall recurse prefix path d,
  (forall cn c, In (cn, IsModule c) d -> forall p q,
     emits (fun evs => subsequence (flat_map pick evs) (objects (descendants c q)))
           (recurse c p)) ->
  forall memo count m,
    emits (fun evs => subsequence (flat_map pick evs)
                        (objects (children_descendants path (yield_children d memo))))
          (ModuleReplacer.children_loop recurse prefix d memo count m).
Proof.
  intros recurse prefix path d. induction d as [|[cn [c|t]] rest IH];
    intros Hrec memo count m.
  - apply emits_ret. constructor.
  - assert (Hrest : forall cn' c', In (cn', IsModule c') rest -> forall p q,
              emits (fun evs => subsequence (flat_map pick evs)
                                  (objects (descendants c' q)))
                    (recurse c' p)).
    { intros cn' c' Hin. apply (Hrec cn' c'). now right. }
    simpl ModuleReplacer.children_loop. simpl yield_children.
    destruct (seen c memo); [now apply IH|].
    unfold children_descendants. simpl flat_map. simpl fst. simpl snd.
    fold (children_descendants path (yield_children rest (ident c :: memo))).
    change (objects ((path ++ [cn], c)
                       :: descendants c (path ++ [cn])
                          ++ children_descendants path
                               (yield_children rest (ident c :: memo))))
      with ([ident c]
              ++ objects (descendants c (path ++ [cn])
                          ++ children_descendants path
                               (yield_children rest (ident c :: memo)))).
    rewrite objects_app.
    apply (emits_seq _ _
             (fun evs => subsequence (flat_map pick evs) [ident c])
             (fun evs => subsequence (flat_map pick evs)
                           (objects (descendants c (path ++ [cn]))
                            ++ objects (children_descendants path
                                          (yield_children rest (ident c :: memo)))))).
    + intros x Hx. now apply subsequence_app_l.
    + intros x y Hx Hy. rewrite flat_map_app. now apply subsequence_app.
    + apply pick_rules.
    + intros [c1 m1].
      apply (emits_seq _ _
               (fun evs => subsequence (flat_map pick evs)
                             (objects (descendants c (path ++ [cn]))))
               (fun evs => subsequence (flat_map pick evs)
                             (objects (children_descendants path
                                         (yield_children rest (ident c :: memo)))))).
      * intros x Hx. now apply subsequence_app_l.
      * intros x y Hx Hy. rewrite flat_map_app. now apply subsequence_app.
      * destruct (Nat.eqb c1 0).
        -- apply (Hrec cn c). now left.
        -- apply emits_ret. constructor.
      * intros [c2 m2]. now apply IH.
  - simpl ModuleReplacer.children_loop. simpl yield_children. apply IH.
    intros cn' c' Hin. apply (Hrec cn' c'). now right.
Qed.

Lemma once_apply_recursively : forall m prefix path,
  emits (fun evs => subsequence (flat_map pick evs) (objects (descendants m path)))
        (ModuleReplacer._apply_recursively m prefix).
Proof.
  induction m as [m IH] using nn_module_tree_ind. intros prefix path.
  rewrite apply_recursively_eq, descendants_eq.
  apply once_children_loop. intros cn c Hin p q. exact (IH cn c Hin p q).
Qed.

Lemma once_apply : forall root s,
  exists evs,
    snd (ModuleReplacer.apply root s) = log s evs /\
    subsequence (flat_map pick evs)
      (ident root
         :: objects (descendants
                       (match fst (ModuleReplacer._apply_rules root "" "" s) with
                        | Ok (_, R) => R
                        | Raise _ => root
                        end) [])).
Proof.
  intros root s.
  destruct (pick_rules root "" "" s) as [e1 [H1 S1]].
  unfold ModuleReplacer.apply, ModuleReplacer.apply_counts.
  unfold bind at 1. unfold bind at 1.
  destruct (ModuleReplacer._apply_rules root "" "" s) as [[[c R]|e] s1] eqn:E1;
    simpl in H1; subst s1; simpl fst.
  - destruct (once_apply_recursively R "" [] (log s e1)) as [e2 [H2 S2]].
    assert (Hboth : subsequence (flat_map pick (e1 ++ e2))
                      (ident root :: objects (descendants R []))).
    { rewrite flat_map_app. now apply (subsequence_app _ [ident root]). }
    unfold bind at 1.
    destruct (ModuleReplacer._apply_recursively R "" (log s e1)) as [[[c2 m2]|e] s2];
      simpl in H2; subst s2.
    + unfold ret at 1. unfold bind at 1. unfold get_self.
      exists ((e1 ++ e2) ++ total_events (self s) (c2 + c)).
      unfold total_events. simpl self.
      destruct (verbosity (self s) >=? 1)%Z.
      * split.
        { unfold bind, emit, ret. simpl. unfold log. simpl.
          now rewrite <- !app_assoc. }
        rewrite flat_map_app. simpl flat_map. now rewrite pick_print, !app_nil_r.
      * split.
        { unfold bind, ret. simpl. unfold log. simpl.
          now rewrite app_nil_r, <- !app_assoc. }
        now rewrite app_nil_r.
    + exists (e1 ++ e2). simpl. rewrite log_log. split; [reflexivity | exact Hboth].
  - exists e1. simpl. split; [reflexivity|].
    now apply (subsequence_app_l _ [ident root]).
Qed.
End OncePerPosition.

Lemma tested_once_per_test : forall m n fn,
  emits (fun evs => subsequence (flat_map tested_on evs) [ident m])
        (ModuleReplacer._apply_rules m n fn).
Proof.
  intros m n fn s. rewrite apply_rules_eq.
  destruct (rules_loop_once (rules (self s)) 0 m n fn s) as [evs [H1 [H2 _]]].
  exists evs. split; [exact H1 | exact H2].
Qed.

Lemma transformed_once_per_test : forall m n fn,
  emits (fun evs => subsequence (flat_map transformed_on evs) [ident m])
        (ModuleReplacer._apply_rules m n fn).
Proof.
  intros m n fn s. rewrite apply_rules_eq.
  destruct (rules_loop_once (rules (self s)) 0 m n fn s) as [evs [H1 [_ H3]]].
  exists evs. split; [exact H1 | exact H3].
Qed.

Lemma log_inj : forall s a b, log s a = log s b -> a = b.
Proof.
  intros s a b H. unfold log in H. injection H as H.
  now apply app_inv_head in H.
Qed.

(** C3 (amended).  Rules are tried in insertion order, and the first match
    wins in every test of a node against the rule list, that is in every
    call of [_apply_rules]: at most one transformer is invoked, and the
    count returned is the number of invocations, 0 or 1.  For a node
    matched by two rules, of which the earlier one is the first rule that
    matches, the filters are called up to the earlier rule, then the
    earlier rule's transformer, and neither the filter nor the transformer
    of the later rule is called in that test.  Over a pass a node is tested
    once for each position at which the traversal reaches it: the nodes
    tested are, in order, among the root and the positions below the module
    that the root step passes on, as [named_children()] presents them, each
    position at most once.  So when these positions hold different objects,
    every node is tested at most once and handed to a transformer at most
    once in the pass. *)
Theorem first_match_wins :
  (forall (s : state) (m : nn_module) (n fn : string),
    (exists evs,
       snd (ModuleReplacer._apply_rules m n fn s) = log s evs /\
       transformer_calls evs <= 1 /\
       forall count R,
         fst (ModuleReplacer._apply_rules m n fn s) = Ok (count, R) ->
         count = transformer_calls evs /\ (count = 0 \/ count = 1)) /\
    forall (pre : list ModuleReplacementRule.t) (r1 : ModuleReplacementRule.t)
           (mid : list ModuleReplacementRule.t) (r2 : ModuleReplacementRule.t)
           (post : list ModuleReplacementRule.t),
      rules (self s) = pre ++ r1 :: mid ++ r2 :: post ->
      unmatched pre m n fn ->
      ModuleFilter.apply (ModuleReplacementRule.filter r1) m n fn = Ok true ->
      ModuleFilter.apply (ModuleReplacementRule.filter r2) m n fn = Ok true ->
      let outcome := ModuleReplacer._apply_rules m n fn s in
      let i1 := List.length pre in
      let i2 := List.length pre + 1 + List.length mid in
      let transformed :=
        ModuleTransformer.apply (ModuleReplacementRule.transformer r1) m n fn in
      exists evs,
        snd outcome = log s evs /\
        evs = filter_calls 0 (S i1) m n fn ++ [TransformerCall i1 m n fn]
              ++ match transformed with
                 | Ok R => replaced_events (self s) m fn R
                 | Raise _ => []
                 end /\
        fst outcome = match transformed with
                      | Ok R => Ok (1, R)
                      | Raise e => Raise e
                      end /\
        transformer_calls evs = 1 /\
        (forall ev, In ev evs -> rule_index_of ev <> Some i2) /\
        (forall ev j, In ev evs -> rule_index_of ev = Some j -> j <= i1) /\
        (forall ev, In ev evs -> is_transformer_call ev = true ->
           ev = TransformerCall i1 m n fn)) /\
  (forall (root : nn_module) (s : state),
     exists evs,
       snd (ModuleReplacer.apply root s) = log s evs /\
       let R := match fst (ModuleReplacer._apply_rules root "" "" s) with
                | Ok (_, R) => R
                | Raise _ => root
                end in
       let positions := ident root :: objects (descendants R []) in
       subsequence (tested_objects evs) positions /\
       subsequence (transformed_objects evs) positions /\
       (NoDup positions ->
        forall i, count_occ Nat.eq_dec (tested_objects evs) i <= 1 /\
                  count_occ Nat.eq_dec (transformed_objects evs) i <= 1)).
Proof.
  split.
  - intros s m n fn. split.
    + rewrite apply_rules_eq.
      destruct (rules_loop_bound (rules (self s)) 0 m n fn s) as [evs [H1 [H2 [H3 _]]]].
      exists evs. split; [exact H1|]. split; [exact H2|].
      intros count R H. destruct (H3 count R H) as [-> _].
      split; [reflexivity | lia].
    + apply first_of_two_matches.
  - intros root s.
    destruct (once_apply tested_on tested_once_per_test (fun _ => eq_refl) root s)
      as [evs [H1 H2]].
    destruct (once_apply transformed_on transformed_once_per_test (fun _ => eq_refl)
                root s) as [evs' [H1' H2']].
    rewrite H1 in H1'. apply log_inj in H1'. subst evs'.
    exists evs. split; [exact H1|]. intros R positions.
    split; [exact H2|]. split; [exact H2'|].
    intros Hnd i. split.
    + apply (NoDup_count_occ Nat.eq_dec). exact (subsequence_NoDup _ _ H2 Hnd).
    + apply (NoDup_count_occ Nat.eq_dec). exact (subsequence_NoDup _ _ H2' Hnd).
Qed.

(** C3 as stated fails: a pass can hand one node to a transformer twice.
    In [example_shared_blocks] the blocks "a" and "b" hold the same 3x3
    convolution; the traversal reaches it at "a.conv" and at "b.conv", and
    the BSConvU preset calls its transformer on it at both positions. *)
Lemma one_invocation_per_node_counterexample :
  ~ (forall i,
       count_occ Nat.eq_dec
         (transformed_objects
            (trace (snd (ModuleReplacer.apply example_shared_blocks
                           (start example_bsconvu_engine))))) i <= 1).
Proof.
  intros H. specialize (H 4). vm_compute in H. lia.
Qed.

(** The positions have to hold different objects also for this reason: a
    root that its transformer wraps in a new module is a position below the
    module that the root step passes on, and is tested there a second time,
    by the second rule as well. *)
Example wrapped_root_example :
  let root := example_conv 1 3 3 in
  trace (snd (ModuleReplacer.apply root (start example_wrapping_engine)))
    = [FilterCall 0 root "" ""; TransformerCall 0 root "" "";
       FilterCall 0 root "inner" "inner"; FilterCall 1 root "inner" "inner";
       TransformerCall 1 root "inner" "inner"] /\
  ident root :: objects (descendants (example_container 9 "Wrapped"
                                        [("inner", IsModule root)]) [])
    = [1; 1].
Proof. split; reflexivity. Qed.

(** ** The object that [_apply_recursively] returns *)

Lemma bind_ok_inv : forall A B (c : M A) (k : A -> M B) s b,
  fst (bind c k s) = Ok b ->
  exists a s1, c s = (Ok a, s1) /\ fst (k a s1) = Ok b.
Proof.
  intros A B c k s b H. unfold bind in H.
  destruct (c s) as [[a|e] s1]; [|discriminate]. now exists a, s1.
Qed.

Lemma same_object_refl : forall m, same_object m m.
Proof. intros m. exists (_modules m). now rewrite set_modules_same. Qed.

Lemma same_object_setattr : forall m cn c m',
  same_object (setattr m cn c) m' -> same_object m m'.
Proof. intros m cn c m' [d ->]. now exists d. Qed.

Lemma same_object_fields : forall a b,
  same_object a b ->
  ident b = ident a /\ type_name b = type_name a /\ conv2d b = conv2d a /\
  _reg_loss b = _reg_loss a /\ has_reg_loss b = has_reg_loss a.
Proof. intros a b [d ->]. now repeat split. Qed.

Lemma children_loop_same_object : forall recurse prefix d memo count m s c' m',
  fst (ModuleReplacer.children_loop recurse prefix d memo count m s) = Ok (c', m') ->
  same_object m m'.
Proof.
  intros recurse prefix d. induction d as [|[cn [c|t]] rest IH];
    intros memo count m s c' m' H.
  - simpl in H. injection H as _ <-. apply same_object_refl.
  - simpl ModuleReplacer.children_loop in H.
    destruct (seen c memo); [now apply IH in H|].
    apply bind_ok_inv in H. destruct H as [[c1 m1] [s1 [_ H]]].
    apply bind_ok_inv in H. destruct H as [[c2 m2] [s2 [_ H]]].
    apply IH in H. now apply same_object_setattr in H.
  - simpl ModuleReplacer.children_loop in H. now apply IH in H.
Qed.

Lemma apply_recursively_same_object : forall m prefix s c' m',
  fst (ModuleReplacer._apply_recursively m prefix s) = Ok (c', m') ->
  same_object m m'.
Proof.
  intros m prefix s c' m'. rewrite apply_recursively_eq.
  apply children_loop_same_object.
Qed.

(** ** Passes that return *)

Lemma returns_bind : forall A B e (c : M A) (k : A -> M B),
  frame_ok c -> returns_on e c -> (forall a, returns_on e (k a)) ->
  returns_on e (bind c k).
Proof.
  intros A B e c k Hf Hc Hk s Hs. unfold bind.
  destruct (Hc s Hs) as [a Ha]. destruct (Hf s) as [evs Hevs].
  destruct (c s) as [r s1]. simpl in Ha, Hevs. subst r s1.
  apply Hk. simpl. exact Hs.
Qed.

Lemma returns_ret : forall A e (a : A), returns_on e (ret a).
Proof. intros A e a s _. now exists a. Qed.

Lemma never_raise_cons : forall r rs,
  never_raise (r :: rs) -> never_raise rs.
Proof. intros r rs H r' Hr'. apply H. now right. Qed.

Lemma rules_loop_returns : forall rs i m n fn s,
  never_raise rs ->
  exists c R, fst (ModuleReplacer.rules_loop rs i m n fn s) = Ok (c, R).
Proof.
  induction rs as [|r rs IH]; intros i m n fn s Hsafe.
  - now exists 0, m.
  - destruct (Hsafe r (or_introl eq_refl) m n fn) as [[b Hb] Ht].
    destruct b.
    + rewrite (rules_loop_head_match _ _ _ _ _ _ _ Hb).
      destruct (Ht Hb) as [R ->]. now exists 1, R.
    + change (r :: rs) with ([r] ++ rs).
      rewrite rules_loop_skip.
      * apply IH. now apply never_raise_cons in Hsafe.
      * intros r' [<-|[]]. exact Hb.
Qed.

Lemma apply_rules_returns : forall e m n fn,
  never_raise (rules e) -> returns_on e (ModuleReplacer._apply_rules m n fn).
Proof.
  intros e m n fn Hsafe s Hs. rewrite apply_rules_eq, Hs.
  destruct (rules_loop_returns (rules e) 0 m n fn s Hsafe) as [c [R H]].
  now exists (c, R).
Qed.

Lemma children_loop_returns : forall e recurse prefix d,
  never_raise (rules e) ->
  (forall cn c, In (cn, IsModule c) d ->
     forall p, frame_ok (recurse c p) /\ returns_on e (recurse c p)) ->
  forall memo count m,
    returns_on e (ModuleReplacer.children_loop recurse prefix d memo count m).
Proof.
  intros e recurse prefix d Hsafe. induction d as [|[cn [c|t]] rest IH];
    intros Hrec memo count m.
  - apply returns_ret.
  - simpl ModuleReplacer.children_loop.
    assert (Hrest : forall cn' c', In (cn', IsModule c') rest ->
              forall p, frame_ok (recurse c' p) /\ returns_on e (recurse c' p)).
    { intros cn' c' Hin. apply (Hrec cn' c'). now right. }
    destruct (seen c memo); [now apply IH|].
    apply returns_bind; [apply frame_apply_rules | now apply apply_rules_returns |].
    intros [c1 m1]. apply returns_bind.
    + destruct (Nat.eqb c1 0); [|apply frame_ret]. apply (Hrec cn c). now left.
    + destruct (Nat.eqb c1 0); [|apply returns_ret]. apply (Hrec cn c). now left.
    + intros [c2 m2]. now apply IH.
  - simpl ModuleReplacer.children_loop. apply IH.
    intros cn' c' Hin. apply (Hrec cn' c'). now right.
Qed.

Lemma apply_recursively_returns : forall e m prefix,
  never_raise (rules e) ->
  returns_on e (ModuleReplacer._apply_recursively m prefix).
Proof.
  intros e m prefix Hsafe. revert prefix.
  induction m as [m IH] using nn_module_tree_ind. intros prefix.
  rewrite apply_recursively_eq. apply children_loop_returns; [exact Hsafe|].
  intros cn c Hin p. split; [apply frame_apply_recursively | now apply (IH cn c)].
Qed.

(** ** What follows a replacement of the root *)



(** The first two statements of [apply] when a rule matches the root. *)
Lemma root_match_counts :
  forall (s : state) (root : nn_module)
         (pre : list ModuleReplacementRule.t) (r : ModuleReplacementRule.t)
         (post : list ModuleReplacementRule.t) (R : nn_module),
    rules (self s) = pre ++ r :: post ->
    unmatched pre root "" "" ->
    ModuleFilter.apply (ModuleReplacementRule.filter r) root "" "" = Ok true ->
    ModuleTransformer.apply (ModuleReplacementRule.transformer r) root "" "" = Ok R ->
    let s1 := log s (filter_calls 0 (S (List.length pre)) root "" ""
                     ++ [TransformerCall (List.length pre) root "" ""]
                     ++ replaced_events (self s) root "" R) in
    let below := ModuleReplacer._apply_recursively R "" s1 in
    ModuleReplacer._apply_rules root "" "" s = (Ok (1, R), s1) /\
    ModuleReplacer.apply_counts root s =
      (match fst below with
       | Ok (count, module) => Ok (1, count, module)
       | Raise e => Raise e
       end, snd below) /\
    (forall root_count count module,
       fst (ModuleReplacer.apply_counts root s) = Ok (root_count, count, module) ->
       root_count = 1 /\ same_object R module).
Proof.
  intros s root pre r post R Hrules Hpre Hf Ht s1 below.
  assert (H1 : ModuleReplacer._apply_rules root "" "" s = (Ok (1, R), s1)).
  { rewrite apply_rules_eq, Hrules.
    now rewrite (rules_loop_first_match _ _ _ _ _ _ _ _ _ Hpre Hf Ht). }
  assert (H2 : ModuleReplacer.apply_counts root s =
               (match fst below with
                | Ok (count, module) => Ok (1, count, module)
                | Raise e => Raise e
                end, snd below)).
  { unfold ModuleReplacer.apply_counts. unfold bind at 1. rewrite H1.
    unfold bind, below.
    destruct (ModuleReplacer._apply_recursively R "" s1) as [[[c m]|e] s2]; reflexivity. }
  split; [exact H1|]. split; [exact H2|].
  intros root_count count module H. rewrite H2 in H. simpl in H.
  destruct (fst below) as [[c m]|e] eqn:Hb; [|discriminate].
  injection H as <- <- <-. split; [reflexivity|].
  exact (apply_recursively_same_object _ _ _ _ _ Hb).
Qed.



(** ** Counts *)

Lemma apply_after_counts : forall root s root_count count module s',
  ModuleReplacer.apply_counts root s = (Ok (root_count, count, module), s') ->
  ModuleReplacer.apply root s =
    (Ok module, log s' (total_events (self s') (count + root_count))).
Proof.
  intros root s rc c m s' H. unfold ModuleReplacer.apply.
  unfold bind at 1. rewrite H. unfold bind at 1. unfold get_self.
  unfold total_events. destruct (verbosity (self s') >=? 1)%Z.
  - reflexivity.
  - unfold bind, ret. now rewrite log_nil.
Qed.

Lemma conv2d_filter_answers : forall ks m n fn,
  exists b, Conv2dFilter.apply (Conv2dFilter.__init__ ks) m n fn = Ok b.
Proof.
  intros ks m n fn. unfold Conv2dFilter.apply.
  destruct (conv2d m); [|now exists false].
  destruct (Conv2dFilter.kernel_sizes (Conv2dFilter.__init__ ks)); [|now exists true].
  destruct (py_in _ _); eexists; reflexivity.
Qed.

Lemma conv2d_filter_true : forall ks m n fn,
  Conv2dFilter.apply (Conv2dFilter.__init__ ks) m n fn = Ok true ->
  exists conv, conv2d m = Some conv.
Proof.
  intros ks m n fn. unfold Conv2dFilter.apply.
  destruct (conv2d m) as [conv|]; [now exists conv | discriminate].
Qed.

(** On a [Conv2d] the transformers read the attributes of the convolution. *)
Lemma read_conv_attrs_conv2d : forall m conv,
  conv2d m = Some conv -> read_conv_attrs m = Ok conv.
Proof. intros m conv H. unfold read_conv_attrs. now rewrite H. Qed.












(** ** Kernel sizes *)

(** C6. A filter built with the allowlist [3] matches a convolution with
    kernel size (3, 3) and rejects one with kernel size (3, 5); the
    allowlists [(3, 3), (5, 5)] and [3, 5] give the same filter, hence the
    same answer on every module; a filter built without allowlist matches
    every convolution. *)
Theorem kernel_size_normalization :
  forall (module : nn_module) (conv : Conv2dAttrs) (name full_name : string),
    conv2d module = Some conv ->
    (kernel_size conv = PyTuple [PyInt 3; PyInt 3] ->
     Conv2dFilter.apply (Conv2dFilter.__init__ (Some [PyInt 3])) module name full_name
       = Ok true) /\
    (kernel_size conv = PyTuple [PyInt 3; PyInt 5] ->
     Conv2dFilter.apply (Conv2dFilter.__init__ (Some [PyInt 3])) module name full_name
       = Ok false) /\
    Conv2dFilter.__init__ (Some [PyTuple [PyInt 3; PyInt 3]; PyTuple [PyInt 5; PyInt 5]])
      = Conv2dFilter.__init__ (Some [PyInt 3; PyInt 5]) /\
    Conv2dFilter.apply
      (Conv2dFilter.__init__ (Some [PyTuple [PyInt 3; PyInt 3]; PyTuple [PyInt 5; PyInt 5]]))
      module name full_name
    = Conv2dFilter.apply (Conv2dFilter.__init__ (Some [PyInt 3; PyInt 5]))
        module name full_name /\
    Conv2dFilter.apply (Conv2dFilter.__init__ None) module name full_name = Ok true.
Proof.
  intros module conv name full_name Hconv.
  unfold Conv2dFilter.apply. rewrite Hconv. simpl.
  repeat split; intros ->; reflexivity.
Qed.

(** ** The regularisation loss *)

Section RegLoss.
Variable host_add : loss_value -> loss_value -> result loss_value.

Import RegularizationMethodTransformer.

Lemma reg_loss_step_lacks : forall loss m,
  lacks_reg_loss m ->
  reg_loss_step host_add loss (_reg_loss m) = Ok loss.
Proof.
  intros loss m [H|[a H]]; now rewrite H.
Qed.

Lemma reg_loss_loop_lacks : forall l loss,
  (forall x, In x l -> lacks_reg_loss x) -> reg_loss_loop host_add loss l = Ok loss.
Proof.
  induction l as [|m l IH]; intros loss H; simpl.
  - reflexivity.
  - rewrite reg_loss_step_lacks; [|apply H; now left].
    apply IH. intros x Hx. apply H. now right.
Qed.

Lemma reg_loss_loop_app : forall a b loss,
  reg_loss_loop host_add loss (a ++ b) =
  match reg_loss_loop host_add loss a with
  | Ok loss' => reg_loss_loop host_add loss' b
  | Raise e => Raise e
  end.
Proof.
  induction a as [|m a IH]; intros b loss; simpl.
  - reflexivity.
  - destruct (reg_loss_step host_add loss (_reg_loss m));
      [apply IH | reflexivity].
Qed.

(** The loop up to and including the first sub-module that has a
    [_reg_loss]: the statement executed for it is [loss += sub_loss] on the
    seed. *)
Lemma reg_loss_first_contribution : forall before d after v,
  (forall x, In x before -> lacks_reg_loss x) ->
  _reg_loss d = Some (Ok v) ->
  reg_loss_loop host_add (LossFloat float_zero) (before ++ d :: after) =
  match iadd host_add (LossFloat float_zero) v with
  | Ok loss => reg_loss_loop host_add loss after
  | Raise e => Raise e
  end.
Proof.
  intros before d after v Hbefore Hd.
  rewrite reg_loss_loop_app, (reg_loss_loop_lacks _ _ Hbefore).
  simpl. now rewrite Hd.
Qed.
End RegLoss.

(** C7. After RegularizationMethodTransformer has attached [reg_loss] to a
    root, [reg_loss()] returns exactly 2.5 when the only module of the tree
    with a [_reg_loss] method returns 2.5, and the seed 0.0 when no module
    has one; the modules without [_reg_loss] are skipped without error. *)
Theorem regularization_aggregation :
  forall (host_add : loss_value -> loss_value -> result loss_value)
         (root root' : nn_module) (name full_name : string),
    RegularizationMethodTransformer.apply root name full_name = Ok root' ->
    (forall before d after,
       modules root' = before ++ d :: after ->
       _reg_loss d = Some (Ok (LossFloat float_2_5)) ->
       (forall x, In x (before ++ after) -> lacks_reg_loss x) ->
       RegularizationMethodTransformer.call_reg_loss host_add root'
         = Ok (LossFloat float_2_5)) /\
    ((forall x, In x (modules root') -> lacks_reg_loss x) ->
     RegularizationMethodTransformer.call_reg_loss host_add root'
       = Ok (LossFloat float_zero)).
Proof.
  intros host_add root root' name full_name Happly.
  injection Happly as <-.
  unfold RegularizationMethodTransformer.call_reg_loss,
    RegularizationMethodTransformer.reg_loss.
  simpl has_reg_loss. split.
  - intros before d after Hmods Hd Hothers. rewrite Hmods.
    rewrite (reg_loss_first_contribution host_add before d after (LossFloat float_2_5)); [|
      intros x Hx; apply Hothers; apply in_or_app; now left | exact Hd].
    simpl. apply reg_loss_loop_lacks.
    intros x Hx. apply Hothers. apply in_or_app. now right.
  - intros Hnone. now apply reg_loss_loop_lacks.
Qed.


(** * The theorems on the example objects *)


Lemma first_match_witness :
  fst (ModuleReplacer._apply_rules example_conv1 "conv1" "block1.conv1"
         (start example_two_rule_engine))
    = Ok (1, set_has_reg_loss example_conv1 true) /\
  transformer_calls
    (trace (snd (ModuleReplacer._apply_rules example_conv1 "conv1" "block1.conv1"
                   (start example_two_rule_engine)))) = 1 /\
  forall i,
    count_occ Nat.eq_dec
      (transformed_objects
         (trace (snd (ModuleReplacer.apply example_net (start example_two_rule_engine)))))
      i <= 1.
Proof.
  destruct first_match_wins as [Htest Hpass].
  destruct (Htest (start example_two_rule_engine) example_conv1
              "conv1" "block1.conv1") as [_ H].
  destruct (H [] (ModuleReplacementRule.__init__ (Conv2dFilter.new (Some [PyInt 3]))
                    RegularizationMethodTransformer.new)
              [] (ModuleReplacementRule.__init__ (Conv2dFilter.new None)
                    RegularizationMethodTransformer.new) [])
    as [evs [H1 [_ [H3 [H4 _]]]]].
  - reflexivity.
  - intros r [].
  - reflexivity.
  - reflexivity.
  - split; [exact H3|]. split; [rewrite H1; exact H4|].
    destruct (Hpass example_net (start example_two_rule_engine))
      as [evs' [H1' [_ [_ Honce]]]].
    rewrite H1'. intros i. apply Honce.
    vm_compute. repeat (constructor; [simpl; intuition lia|]). constructor.
Defined.

Lemma example_idle_no_match : no_match example_idle_engine example_net.
Proof.
  intros p m Hin r Hr. destruct Hr as [<-|[]].
  simpl in Hin.
  repeat (destruct Hin as [Hin|Hin]; [injection Hin as <- <-; reflexivity|]).
  contradiction.
Defined.

Lemma no_match_witness :
  ModuleReplacer.apply example_net (start example_idle_engine)
  = (Ok example_net,
     log (start example_idle_engine)
       (flat_map (node_calls 1) (tree_nodes example_net)
        ++ total_events example_idle_engine 0)).
Proof.
  destruct (no_match_pass_is_identity example_net (start example_idle_engine))
    as [_ [H _]].
  - reflexivity.
  - exact example_idle_no_match.
  - exact H.
Defined.

Lemma path_witness :
  In (FilterCall 0 example_conv1 "conv1" "block1.conv1")
     (trace (snd (ModuleReplacer.apply example_net (start example_idle_engine)))) /\
  In (FilterCall 0 example_block1 "block1" "block1")
     (trace (snd (ModuleReplacer.apply example_net (start example_idle_engine)))) /\
  In (FilterCall 0 example_net "" "")
     (trace (snd (ModuleReplacer.apply example_net (start example_idle_engine)))).
Proof.
  destruct (path_correctness example_net (start example_idle_engine)) as [_ [H _]].
  assert (Hrules : rules (self (start example_idle_engine)) <> []) by discriminate.
  pose proof (H eq_refl example_idle_no_match Hrules) as Hin.
  split; [|split].
  - apply (Hin ["block1"; "conv1"] example_conv1). right.
    apply node_below with example_block1; [now left|].
    apply node_child. now left.
  - apply (Hin ["block1"] example_block1). right. apply node_child. now left.
  - apply (Hin [] example_net). now left.
Defined.

Lemma kernel_size_witness :
  Conv2dFilter.apply (Conv2dFilter.__init__ (Some [PyInt 3])) (example_conv 1 3 3)
    "conv" "conv" = Ok true /\
  Conv2dFilter.apply (Conv2dFilter.__init__ (Some [PyInt 3])) (example_conv 1 3 5)
    "conv" "conv" = Ok false /\
  Conv2dFilter.apply (Conv2dFilter.__init__ None) (example_conv 1 7 7)
    "conv" "conv" = Ok true.
Proof.
  split; [|split].
  - destruct (kernel_size_normalization (example_conv 1 3 3) (conv_attrs 3 3)
                "conv" "conv" eq_refl) as [H _].
    exact (H eq_refl).
  - destruct (kernel_size_normalization (example_conv 1 3 5) (conv_attrs 3 5)
                "conv" "conv" eq_refl) as [_ [H _]].
    exact (H eq_refl).
  - destruct (kernel_size_normalization (example_conv 1 7 7) (conv_attrs 7 7)
                "conv" "conv" eq_refl) as [_ [_ [_ [_ H]]]].
    exact H.
Defined.

Lemma regularization_witness :
  RegularizationMethodTransformer.call_reg_loss example_host_add
    (set_has_reg_loss example_regularized_net true) = Ok (LossFloat float_2_5) /\
  RegularizationMethodTransformer.call_reg_loss example_host_add
    (set_has_reg_loss example_net true) = Ok (LossFloat float_zero).
Proof.
  split.
  - destruct (regularization_aggregation example_host_add example_regularized_net
                (set_has_reg_loss example_regularized_net true) "" "" eq_refl)
      as [H _].
    apply (H [set_has_reg_loss example_regularized_net true; example_conv 2 7 7]
             (example_regularized 3 (LossFloat float_2_5))
             [example_conv 4 1 1]).
    + reflexivity.
    + reflexivity.
    + intros x [<-|[<-|[<-|[]]]]; now left.
  - destruct (regularization_aggregation example_host_add example_net
                (set_has_reg_loss example_net true) "" "" eq_refl)
      as [_ H].
    apply H. intros x Hx. simpl in Hx.
    repeat (destruct Hx as [<-|Hx]; [now left|]). contradiction.
Defined.

Lemma add_rule_witness :
  ModuleReplacer.add_rule [ArgTransformer RegularizationMethodTransformer.new;
                           ArgFilter ModelFilter.new]
    (start example_root_engine)
  = (Raise (TypeError "Rule must be specified either as instance of ModuleReplacementRule or as pair of ModuleFilter and ModuleTransformer instances"),
     start example_root_engine) /\
  rules (self (snd (ModuleReplacer.add_rule
                      [ArgFilter ModelFilter.new;
                       ArgTransformer RegularizationMethodTransformer.new]
                      (start example_root_engine))))
  = [example_root_rule; example_root_rule].
Proof.
  split.
  - reflexivity.
  - destruct (add_rule_spec [ArgFilter ModelFilter.new;
                             ArgTransformer RegularizationMethodTransformer.new]
                (start example_root_engine)) as [_ [_ H]].
    destruct (H eq_refl) as [rule [Hrules [_ [_ [_ [Hshape|Hshape]]]]]].
    + discriminate Hshape.
    + destruct Hshape as [f [t [Hargs ->]]]. injection Hargs as <- <-.
      exact Hrules.
Defined.


Lemma engine_witness :
  rules (self (snd (ModuleReplacer.apply example_net (start example_preset))))
    = rules example_preset /\
  verbosity (self (snd (ModuleReplacer.apply example_net (start example_preset))))
    = verbosity example_preset /\
  fst (ModuleReplacer.apply example_net (start example_raising_engine))
    = Raise (UserError 1) /\
  self (snd (ModuleReplacer.apply example_net (start example_raising_engine)))
    = example_raising_engine.
Proof.
  destruct (apply_preserves_engine example_net (start example_preset)) as [_ [H1 [H2 _]]].
  destruct (apply_preserves_engine example_net (start example_raising_engine))
    as [H3 _].
  split; [exact H1|]. split; [exact H2|]. split; [reflexivity | exact H3].
Defined.

(** The BSConvU preset on a model with a 3x3 and a 7x7 convolution at the
    top level: one module is replaced, the 7x7 convolution stays, and the
    summary reports a total of 1. *)
Example count_aggregation_example :
  exists e,
    BSConvU_Replacer.__init__ example_BSConvU default_kernel_sizes 1 = Ok e /\
    fst (ModuleReplacer.apply_counts example_two_convs (start e))
      = Ok (0, 1,
            example_container 1 "Net"
              [("conv3", IsModule (example_container 101 "BSConvU" []));
               ("conv7", IsModule (example_conv 3 7 7))]) /\
    trace (snd (ModuleReplacer.apply example_two_convs (start e)))
      = [FilterCall 0 example_two_convs "" "";
         FilterCall 0 (example_conv 2 3 3) "conv3" "conv3";
         TransformerCall 0 (example_conv 2 3 3) "conv3" "conv3";
         FilterCall 0 (example_conv 3 7 7) "conv7" "conv7";
         PrintLine "BSConvU_Replacer replaced a total of 1 module"].
Proof.
  eexists. split; [reflexivity|]. split; reflexivity.
Qed.

(** * Further properties of the code *)

(** ** Kernel sizes and the convolution filter *)

Section pyval_induction.
Variable P : pyval -> Prop.
Hypothesis int_case : forall z, P (PyInt z).
Hypothesis tuple_case : forall items, Forall P items -> P (PyTuple items).
Hypothesis list_case : forall items, Forall P items -> P (PyList items).

Lemma pyval_nested_ind : forall v, P v.
Proof.
  fix IH 1. intros [z|items|items].
  - apply int_case.
  - apply tuple_case. induction items as [|x items IHitems]; constructor.
    + apply IH.
    + exact IHitems.
  - apply list_case. induction items as [|x items IHitems]; constructor.
    + apply IH.
    + exact IHitems.
Qed.
End pyval_induction.

Lemma py_eq_items : forall xs,
  Forall (fun a => forall b, py_eq a b = true <-> a = b) xs ->
  forall ys,
    (fix items_eq (xs ys : list pyval) {struct xs} : bool :=
       match xs, ys with
       | [], [] => true
       | x :: xs', y :: ys' => py_eq x y && items_eq xs' ys'
       | _, _ => false
       end) xs ys = true <-> xs = ys.
Proof.
  induction 1 as [|x xs Hx Hxs IH]; intros [|y ys]; simpl;
    try (split; [discriminate | discriminate]); try tauto.
  rewrite Bool.andb_true_iff, Hx, IH. split.
  - intros [-> ->]. reflexivity.
  - intros H. injection H as -> ->. now split.
Qed.

(** [==] on kernel values is structural equality. *)
Lemma py_eq_iff : forall a b, py_eq a b = true <-> a = b.
Proof.
  induction a as [z|items IH|items IH] using pyval_nested_ind; intros [z'|items'|items'];
    simpl; try (split; discriminate).
  - rewrite Z.eqb_eq. split; [now intros -> | now intros [= ->]].
  - rewrite (py_eq_items items IH). split; [now intros -> | now intros [= ->]].
  - rewrite (py_eq_items items IH). split; [now intros -> | now intros [= ->]].
Qed.

Lemma py_in_iff : forall x l, py_in x l = true <-> In x l.
Proof.
  intros x l. unfold py_in. rewrite existsb_exists. split.
  - intros [y [Hy Heq]]. apply py_eq_iff in Heq. now subst.
  - intros H. exists x. split; [exact H | now apply py_eq_iff].
Qed.

(** X1. [forceTwoTuple] always returns a tuple and is idempotent: an
    integer becomes the pair of itself, a list becomes the tuple of its
    items whatever their number, a tuple is returned as it is.  Building a
    filter from an already normalised allowlist gives the same filter. *)
Theorem forceTwoTuple_normal_form : forall (x : pyval) (kernel_sizes : list pyval),
  (exists items, forceTwoTuple x = PyTuple items) /\
  forceTwoTuple (forceTwoTuple x) = forceTwoTuple x /\
  (forall z, x = PyInt z -> forceTwoTuple x = PyTuple [PyInt z; PyInt z]) /\
  (forall items, x = PyList items \/ x = PyTuple items ->
     forceTwoTuple x = PyTuple items) /\
  Conv2dFilter.__init__ (Some (normalised kernel_sizes))
    = Conv2dFilter.__init__ (Some kernel_sizes).
Proof.
  intros x ks. split; [|split; [|split; [|split]]].
  - destruct x; eexists; reflexivity.
  - now destruct x.
  - now intros z ->.
  - now intros items [->| ->].
  - unfold Conv2dFilter.__init__, normalised. f_equal. f_equal.
    rewrite map_map. apply map_ext. intros a. now destruct a.
Qed.

(** X2. The convolution filter never raises and ignores the two names.  It
    answers true exactly on a [Conv2d] whose kernel size equals a normalised
    entry of the allowlist, or on every [Conv2d] when there is no allowlist;
    an empty allowlist matches nothing. *)
Theorem conv2d_filter_spec :
  forall (kernel_sizes : option (list pyval)) (module : nn_module)
         (name full_name : string),
    let answer := Conv2dFilter.apply (Conv2dFilter.__init__ kernel_sizes)
                    module name full_name in
    (answer = Ok true \/ answer = Ok false) /\
    (answer = Ok true <->
     exists conv, conv2d module = Some conv /\
       (kernel_sizes = None \/
        exists l, kernel_sizes = Some l /\ In (kernel_size conv) (normalised l))) /\
    (forall name' full_name',
       Conv2dFilter.apply (Conv2dFilter.__init__ kernel_sizes) module name' full_name'
       = answer) /\
    (kernel_sizes = Some [] -> answer = Ok false).
Proof.
  intros ks m n fn answer. unfold answer, Conv2dFilter.apply. clear answer.
  destruct (conv2d m) as [conv|].
  - destruct ks as [l|]; simpl.
    + destruct (py_in (kernel_size conv) (map forceTwoTuple l)) eqn:Hin.
      * apply py_in_iff in Hin. split; [now left|]. split; [|split].
        -- split; [|reflexivity]. intros _. exists conv. split; [reflexivity|].
           right. now exists l.
        -- reflexivity.
        -- intros [= ->]. contradiction.
      * split; [now right|]. split; [|split].
        -- split; [discriminate|]. intros [conv' [[= <-] [H|[l' [[= <-] H]]]]].
           ++ discriminate.
           ++ apply py_in_iff in H. unfold normalised in H. congruence.
        -- reflexivity.
        -- reflexivity.
    + split; [now left|]. split; [|split].
      * split; [|reflexivity]. intros _. exists conv. split; [reflexivity | now left].
      * reflexivity.
      * discriminate.
  - split; [now right|]. split; [|split].
    + split; [discriminate|]. intros [conv [H _]]. discriminate.
    + reflexivity.
    + reflexivity.
Qed.

(** X3. Only the set of normalised entries of an allowlist matters: two
    allowlists with the same normalised entries give filters that agree on
    every module, so order and repetitions are irrelevant. *)
Theorem conv2d_filter_allowlist_as_set :
  forall (l1 l2 : list pyval) (module : nn_module) (name full_name : string),
    (forall k, In k (normalised l1) <-> In k (normalised l2)) ->
    Conv2dFilter.apply (Conv2dFilter.__init__ (Some l1)) module name full_name
    = Conv2dFilter.apply (Conv2dFilter.__init__ (Some l2)) module name full_name.
Proof.
  intros l1 l2 m n fn Hsame. unfold Conv2dFilter.apply.
  destruct (conv2d m) as [conv|]; [|reflexivity]. simpl.
  fold (normalised l1). fold (normalised l2).
  destruct (py_in (kernel_size conv) (normalised l1)) eqn:H1;
    destruct (py_in (kernel_size conv) (normalised l2)) eqn:H2;
    try reflexivity; exfalso.
  - apply py_in_iff in H1. apply Hsame in H1. apply py_in_iff in H1. congruence.
  - apply py_in_iff in H2. apply Hsame in H2. apply py_in_iff in H2. congruence.
Qed.

(** X4. A module accepted by a convolution filter can be handed to both
    convolution transformers: they read its attributes and return what the
    constructor returns for them, with the configured [p], [with_bn_relu]
    and [bn_kwargs].  The transformers do not test the class of the module:
    on a module that is not a [Conv2d] they do the same with its attributes
    when all eight are there, and raise [AttributeError] when one is
    missing, without calling the constructor. *)
Theorem accepted_modules_are_transformable :
  forall (P BnKwargs : Type) (BSConvU : Conv2dAttrs -> result nn_module)
         (BSConvS : Conv2dAttrs -> P -> bool -> BnKwargs -> result nn_module)
         (p : P) (with_bn_relu : bool) (bn_kwargs : BnKwargs)
         (kernel_sizes : option (list pyval)) (module : nn_module)
         (name full_name : string),
    (Conv2dFilter.apply (Conv2dFilter.__init__ kernel_sizes) module name full_name
       = Ok true ->
     exists conv,
       conv2d module = Some conv /\
       Conv2dToBSConvUTransformer.apply BSConvU module name full_name = BSConvU conv /\
       BSConvSTransformer.apply BSConvS
         (BSConvSTransformer.__init__ p with_bn_relu bn_kwargs) module name full_name
       = BSConvS conv p with_bn_relu bn_kwargs) /\
    (conv2d module = None ->
     match complete_attrs (other_attrs module) with
     | Some conv =>
         Conv2dToBSConvUTransformer.apply BSConvU module name full_name = BSConvU conv /\
         BSConvSTransformer.apply BSConvS
           (BSConvSTransformer.__init__ p with_bn_relu bn_kwargs) module name full_name
         = BSConvS conv p with_bn_relu bn_kwargs
     | None =>
         exists a,
           Conv2dToBSConvUTransformer.apply BSConvU module name full_name
             = Raise (AttributeError a) /\
           BSConvSTransformer.apply BSConvS
             (BSConvSTransformer.__init__ p with_bn_relu bn_kwargs) module name full_name
             = Raise (AttributeError a) /\
           (attr_in_channels (other_attrs module) = None -> a = "in_channels")
     end).
Proof.
  intros P BnKwargs BSConvU BSConvS p b kw ks m n fn. split.
  - intros H. apply conv2d_filter_true in H. destruct H as [conv Hc].
    exists conv. split; [exact Hc|].
    unfold Conv2dToBSConvUTransformer.apply, BSConvSTransformer.apply.
    rewrite (read_conv_attrs_conv2d _ _ Hc). now split.
  - intros Hnone.
    unfold Conv2dToBSConvUTransformer.apply, BSConvSTransformer.apply.
    unfold read_conv_attrs, complete_attrs. rewrite Hnone.
    destruct (other_attrs m) as [ic oc ks' st pd dl bs pm]. simpl.
    destruct ic; simpl;
      [|eexists; split; [reflexivity|]; split; [reflexivity | reflexivity]].
    destruct oc; simpl;
      [|eexists; split; [reflexivity|]; split; [reflexivity | discriminate]].
    destruct ks'; simpl;
      [|eexists; split; [reflexivity|]; split; [reflexivity | discriminate]].
    destruct st; simpl;
      [|eexists; split; [reflexivity|]; split; [reflexivity | discriminate]].
    destruct pd; simpl;
      [|eexists; split; [reflexivity|]; split; [reflexivity | discriminate]].
    destruct dl; simpl;
      [|eexists; split; [reflexivity|]; split; [reflexivity | discriminate]].
    destruct bs; simpl;
      [|eexists; split; [reflexivity|]; split; [reflexivity | discriminate]].
    destruct pm; simpl;
      [|eexists; split; [reflexivity|]; split; [reflexivity | discriminate]].
    now split.
Qed.

(** ** The attached [reg_loss] *)

Section RegLossMore.
Variable host_add : loss_value -> loss_value -> result loss_value.
Import RegularizationMethodTransformer.

Lemma float_losses_lacks : forall m rest,
  lacks_reg_loss m -> float_losses (m :: rest) = float_losses rest.
Proof. intros m rest [H|[a H]]; simpl; now rewrite H. Qed.

Lemma reg_loss_loop_floats : forall l acc,
  (forall x, In x l -> float_or_nothing x) ->
  reg_loss_loop host_add (LossFloat acc) l =
    Ok (LossFloat (fold_left (SFadd 53 1024) (float_losses l) acc)).
Proof.
  induction l as [|m l IH]; intros acc H.
  - reflexivity.
  - assert (Hl : forall x, In x l -> float_or_nothing x).
    { intros x Hx. apply H. now right. }
    destruct (H m (or_introl eq_refl)) as [Hm|[y Hy]].
    + rewrite (float_losses_lacks m l Hm). simpl.
      rewrite (reg_loss_step_lacks host_add _ m Hm). now apply IH.
    + simpl. rewrite Hy. simpl. now apply IH.
Qed.

Lemma reg_loss_loop_not_none : forall l loss loss',
  (forall a b v, host_add a b = Ok v -> v <> LossNone) ->
  loss <> LossNone ->
  reg_loss_loop host_add loss l = Ok loss' -> loss' <> LossNone.
Proof.
  induction l as [|m l IH]; intros loss loss' Hhost Hloss H.
  - simpl in H. now injection H as <-.
  - simpl in H.
    destruct (reg_loss_step host_add loss (_reg_loss m)) as [loss1|e] eqn:Hstep;
      [|discriminate].
    apply (IH loss1 loss' Hhost); [|exact H].
    unfold reg_loss_step, reg_loss_action in Hstep.
    destruct (_reg_loss m) as [[sub|e]|].
    + destruct loss as [|x|dt dev x]; [contradiction| |].
      * destruct sub as [|y|dt dev y]; simpl in Hstep;
          try (now apply (Hhost _ _ _ Hstep)).
        injection Hstep as <-. discriminate.
      * simpl in Hstep. now apply (Hhost _ _ _ Hstep).
    + destruct e; try discriminate. now injection Hstep as <-.
    + now injection Hstep as <-.
Qed.
End RegLossMore.

(** X5. When every module of the tree either has no [_reg_loss] or returns
    a Python float, [reg_loss] returns the left-to-right binary64 sum of the
    returned floats, in the order of [modules()], starting from 0.0; the
    host's tensor arithmetic is not involved.  [modules()] yields every
    object once, so a module registered under two names contributes once. *)
Theorem reg_loss_sums_floats :
  forall (host_add : loss_value -> loss_value -> result loss_value) (root : nn_module),
    (forall x, In x (modules root) -> float_or_nothing x) ->
    RegularizationMethodTransformer.reg_loss host_add root =
      Ok (LossFloat (fold_left (SFadd 53 1024) (float_losses (modules root)) float_zero)).
Proof.
  intros host_add root H. unfold RegularizationMethodTransformer.reg_loss.
  now apply reg_loss_loop_floats.
Qed.

(** X6. An exception other than [AttributeError] raised by a [_reg_loss]
    is not caught: [reg_loss] raises it, and the modules after the failing
    one are not asked. *)
Theorem reg_loss_propagates_errors :
  forall (host_add : loss_value -> loss_value -> result loss_value) (root : nn_module)
         (before : list nn_module) (d : nn_module) (after after' : list nn_module)
         (e : exn),
    modules root = before ++ d :: after ->
    (forall x, In x before -> float_or_nothing x) ->
    _reg_loss d = Some (Raise e) ->
    is_attribute_error e = false ->
    RegularizationMethodTransformer.reg_loss host_add root = Raise e /\
    RegularizationMethodTransformer.reg_loss_loop host_add (LossFloat float_zero)
      (before ++ d :: after') = Raise e.
Proof.
  intros host_add root before d after after' e Hmods Hbefore Hd He.
  assert (Hany : forall rest,
            RegularizationMethodTransformer.reg_loss_loop host_add (LossFloat float_zero)
              (before ++ d :: rest) = Raise e).
  { intros rest. rewrite reg_loss_loop_app, (reg_loss_loop_floats host_add _ _ Hbefore).
    simpl. unfold RegularizationMethodTransformer.reg_loss_step,
      RegularizationMethodTransformer.reg_loss_action.
    rewrite Hd. now destruct e. }
  split; [|apply Hany].
  unfold RegularizationMethodTransformer.reg_loss. rewrite Hmods. apply Hany.
Qed.

(** X7. The branch of [reg_loss] that creates a float32 tensor on the
    device of the sub-loss is never executed: as long as the host's addition
    does not return [None], the accumulator is not [None] when any module of
    the tree is reached. *)
Theorem reg_loss_never_promotes :
  forall (host_add : loss_value -> loss_value -> result loss_value) (root : nn_module)
         (before : list nn_module) (d : nn_module) (after : list nn_module)
         (loss : loss_value),
    (forall a b v, host_add a b = Ok v -> v <> LossNone) ->
    modules root = before ++ d :: after ->
    RegularizationMethodTransformer.reg_loss_loop host_add (LossFloat float_zero) before
      = Ok loss ->
    loss <> LossNone /\
    forall device,
      RegularizationMethodTransformer.reg_loss_action loss (_reg_loss d)
        <> Promote device.
Proof.
  intros host_add root before d after loss Hhost _ Hloop.
  assert (Hloss : loss <> LossNone).
  { apply (reg_loss_loop_not_none host_add before (LossFloat float_zero) loss Hhost);
      [discriminate | exact Hloop]. }
  split; [exact Hloss|]. intros device.
  unfold RegularizationMethodTransformer.reg_loss_action.
  destruct (_reg_loss d) as [[sub|e]|]; try discriminate.
  - destruct loss; [contradiction | discriminate | discriminate].
  - destruct e; discriminate.
Qed.

(** ** Building the rule list *)

Lemma add_rule_accepted : forall args rule s,
  rule_of_args args = Some rule ->
  ModuleReplacer.add_rule args s = (Ok tt, with_rules s (rules (self s) ++ [rule])).
Proof.
  intros args rule s H.
  destruct args as [|a [|b [|c rest]]]; try discriminate.
  - destruct a; try discriminate. injection H as <-. reflexivity.
  - destruct a; try discriminate. destruct b; try discriminate.
    injection H as <-. reflexivity.
  - destruct a; try discriminate. destruct b; discriminate.
Qed.

Lemma add_rule_refused : forall args s,
  rule_of_args args = None ->
  exists msg, ModuleReplacer.add_rule args s = (Raise (TypeError msg), s).
Proof.
  intros args s H.
  destruct args as [|a [|b [|c rest]]]; try (eexists; reflexivity).
  - destruct a; try discriminate; eexists; reflexivity.
  - destruct a; try (eexists; reflexivity). destruct b; try discriminate;
      eexists; reflexivity.
  - destruct a; try (eexists; reflexivity). destruct b; eexists; reflexivity.
Qed.

Lemma with_rules_same : forall s, with_rules s (rules (self s)) = s.
Proof. now intros [[cn v rs] t]. Qed.

Lemma add_each_accepted : forall calls added s,
  map rule_of_args calls = map Some added ->
  add_each calls s = (Ok tt, with_rules s (rules (self s) ++ added)).
Proof.
  induction calls as [|args calls IH]; intros added s H.
  - destruct added; [|discriminate]. simpl. unfold ret.
    now rewrite app_nil_r, with_rules_same.
  - destruct added as [|rule added]; [discriminate|]. simpl in H.
    injection H as Hargs Hrest. simpl. unfold bind.
    rewrite (add_rule_accepted _ _ _ Hargs), (IH added _ Hrest).
    unfold with_rules. simpl. now rewrite <- app_assoc.
Qed.

(** X9. Successive [add_rule] calls compose: the accepted rules are appended
    after the existing ones in call order, and nothing else of the engine
    changes.  The first refused call raises [TypeError]; the rules added by
    the calls before it stay in the engine and the calls after it are not
    made. *)
Theorem add_rule_calls_compose :
  forall (accepted : list (list pyarg)) (added : list ModuleReplacementRule.t)
         (s : state),
    map rule_of_args accepted = map Some added ->
    add_each accepted s = (Ok tt, with_rules s (rules (self s) ++ added)) /\
    forall refused later,
      rule_of_args refused = None ->
      exists msg,
        add_each (accepted ++ refused :: later) s =
          (Raise (TypeError msg), with_rules s (rules (self s) ++ added)).
Proof.
  intros accepted. induction accepted as [|args accepted IH]; intros added s H.
  - destruct added; [|discriminate]. split.
    + now apply add_each_accepted.
    + intros refused later Hr. simpl. unfold bind.
      destruct (add_rule_refused refused s Hr) as [msg ->].
      exists msg. now rewrite app_nil_r, with_rules_same.
  - split; [now apply add_each_accepted|].
    destruct added as [|rule added]; [discriminate|]. simpl in H.
    injection H as Hargs Hrest.
    intros refused later Hr. simpl. unfold bind.
    rewrite (add_rule_accepted _ _ _ Hargs).
    destruct (IH added (with_rules s (rules (self s) ++ [rule])) Hrest) as [_ Hlater].
    destruct (Hlater refused later Hr) as [msg ->]. exists msg.
    unfold with_rules. simpl. now rewrite <- app_assoc.
Qed.

(** ** What the traversal keeps *)

Lemma dict_set_keys : forall d k v,
  In k (keys d) -> keys (dict_set k v d) = keys d.
Proof.
  induction d as [|[k0 c0] rest IH]; simpl; intros k v Hin.
  - contradiction.
  - destruct (String.eqb_spec k0 k) as [->|Hne]; [reflexivity|].
    simpl. f_equal. apply IH. destruct Hin as [Hin|Hin]; [contradiction | exact Hin].
Qed.

Lemma children_loop_keys : forall recurse prefix d memo count m s k m',
  (forall cn x, In (cn, x) d -> In cn (keys (_modules m))) ->
  fst (ModuleReplacer.children_loop recurse prefix d memo count m s) = Ok (k, m') ->
  keys (_modules m') = keys (_modules m).
Proof.
  intros recurse prefix d. induction d as [|[cn [c|t]] rest IH];
    intros memo count m s k m' Hin H.
  - simpl in H. now injection H as _ <-.
  - simpl ModuleReplacer.children_loop in H.
    destruct (seen c memo).
    { apply (IH _ _ _ _ _ _) with (2 := H).
      intros cn' x Hx. apply (Hin cn' x). now right. }
    apply bind_ok_inv in H. destruct H as [[c1 m1] [s1 [_ H]]].
    apply bind_ok_inv in H. destruct H as [[c2 m2] [s2 [_ H]]].
    assert (Hk : keys (_modules (setattr m cn m2)) = keys (_modules m)).
    { unfold setattr. simpl. apply dict_set_keys. apply (Hin cn (IsModule c)). now left. }
    rewrite <- Hk. apply (IH _ _ _ _ _ _) with (2 := H).
    intros cn' x Hx. rewrite Hk. apply (Hin cn' x). now right.
  - simpl ModuleReplacer.children_loop in H. apply (IH _ _ _ _ _ _) with (2 := H).
    intros cn' x Hx. apply (Hin cn' x). now right.
Qed.

Lemma apply_recursively_keys : forall m prefix s k m',
  fst (ModuleReplacer._apply_recursively m prefix s) = Ok (k, m') ->
  keys (_modules m') = keys (_modules m).
Proof.
  intros m prefix s k m' H. rewrite apply_recursively_eq in H.
  apply (children_loop_keys _ _ _ _ _ _ _ _ _) with (2 := H).
  intros cn x Hx. unfold keys. change cn with (fst (cn, x)). now apply in_map.
Qed.

(** X11. Whatever the rules, a pass that returns keeps the child names of
    the module it walks: no name is added, removed or moved, and the module
    returned is the object that was walked. *)
Theorem traversal_keeps_child_names :
  forall (module : nn_module) (name_prefix : string) (s : state)
         (count : nat) (module' : nn_module),
    fst (ModuleReplacer._apply_recursively module name_prefix s) = Ok (count, module') ->
    keys (_modules module') = keys (_modules module) /\
    ident module' = ident module /\
    type_name module' = type_name module.
Proof.
  intros m prefix s k m' H. split.
  - exact (apply_recursively_keys _ _ _ _ _ H).
  - apply apply_recursively_same_object in H. apply same_object_fields in H.
    now destruct H as [Hi [Ht _]].
Qed.

(** ** Rules that never raise *)

Lemma apply_returns : forall e root,
  never_raise (rules e) -> returns_on e (ModuleReplacer.apply root).
Proof.
  intros e root Hsafe. unfold ModuleReplacer.apply, ModuleReplacer.apply_counts.
  apply returns_bind.
  - apply frame_apply_counts.
  - apply returns_bind; [apply frame_apply_rules | now apply apply_rules_returns |].
    intros [c1 m1]. apply returns_bind;
      [apply frame_apply_recursively | now apply apply_recursively_returns |].
    intros [c2 m2]. apply returns_ret.
  - intros [[c1 c2] m2] s Hs. unfold bind, get_self.
    destruct (verbosity (self s) >=? 1)%Z; now exists m2.
Qed.

(** ** Verbosity *)

Lemma calls_only_app : forall a b, calls_only (a ++ b) = calls_only a ++ calls_only b.
Proof. intros a b. unfold calls_only. apply filter_app. Qed.

Lemma agree_ret : forall A (a : A), agree (ret a) (ret a).
Proof.
  intros A a s1 s2 _. split; [reflexivity|]. exists [], [].
  simpl. now rewrite !log_nil.
Qed.

Lemma agree_lift : forall A (r : result A), agree (lift r) (lift r).
Proof.
  intros A r s1 s2 _. split; [reflexivity|]. exists [], [].
  simpl. now rewrite !log_nil.
Qed.

Lemma agree_emit : forall ev, agree (emit ev) (emit ev).
Proof.
  intros ev s1 s2 _. split; [reflexivity|]. now exists [ev], [ev].
Qed.

Lemma agree_bind : forall A B (c1 c2 : M A) (k1 k2 : A -> M B),
  agree c1 c2 -> (forall a, agree (k1 a) (k2 a)) -> agree (bind c1 k1) (bind c2 k2).
Proof.
  intros A B c1 c2 k1 k2 Hc Hk s1 s2 Hs.
  destruct (Hc s1 s2 Hs) as [Hfst [e1 [e2 [H1 [H2 Hcalls]]]]]. unfold bind.
  destruct (c1 s1) as [r1 t1]. destruct (c2 s2) as [r2 t2].
  simpl in Hfst, H1, H2. subst r2 t1 t2.
  destruct r1 as [a|e].
  - destruct (Hk a (log s1 e1) (log s2 e2) Hs) as [Hfst' [e1' [e2' [H1' [H2' Hcalls']]]]].
    split; [exact Hfst'|]. exists (e1 ++ e1'), (e2 ++ e2').
    rewrite H1', H2', !log_log, !calls_only_app, Hcalls, Hcalls'. now repeat split.
  - split; [reflexivity|]. now exists e1, e2.
Qed.

Lemma agree_get_self : forall B (k1 k2 : ModuleReplacer -> M B),
  (forall e1 e2, rules e1 = rules e2 -> agree (k1 e1) (k2 e2)) ->
  agree (bind get_self k1) (bind get_self k2).
Proof.
  intros B k1 k2 Hk s1 s2 Hs. unfold bind, get_self.
  exact (Hk (self s1) (self s2) Hs s1 s2 Hs).
Qed.

Lemma agree_optional_print : forall (b1 b2 : bool) line1 line2,
  agree (if b1 then emit (PrintLine line1) else ret tt)
        (if b2 then emit (PrintLine line2) else ret tt).
Proof.
  intros b1 b2 l1 l2 s1 s2 _. split; [now destruct b1, b2|].
  exists (if b1 then [PrintLine l1] else []), (if b2 then [PrintLine l2] else []).
  destruct b1, b2; simpl; rewrite ?log_nil; now repeat split.
Qed.

Lemma agree_rules_loop : forall rs i m n fn,
  agree (ModuleReplacer.rules_loop rs i m n fn) (ModuleReplacer.rules_loop rs i m n fn).
Proof.
  induction rs as [|r rs IH]; intros i m n fn; simpl.
  - apply agree_ret.
  - apply agree_bind; [apply agree_emit|]. intros _.
    apply agree_bind; [apply agree_lift|]. intros [|]; [|apply IH].
    apply agree_bind; [apply agree_emit|]. intros _.
    apply agree_bind; [apply agree_lift|]. intros R.
    apply agree_get_self. intros e1 e2 _.
    apply agree_bind; [apply agree_optional_print|]. intros _. apply agree_ret.
Qed.

Lemma agree_apply_rules : forall m n fn,
  agree (ModuleReplacer._apply_rules m n fn) (ModuleReplacer._apply_rules m n fn).
Proof.
  intros m n fn. unfold ModuleReplacer._apply_rules.
  apply agree_get_self. intros e1 e2 ->. apply agree_rules_loop.
Qed.

Lemma agree_children_loop : forall recurse prefix d,
  (forall cn c, In (cn, IsModule c) d -> forall p, agree (recurse c p) (recurse c p)) ->
  forall memo count m,
    agree (ModuleReplacer.children_loop recurse prefix d memo count m)
          (ModuleReplacer.children_loop recurse prefix d memo count m).
Proof.
  intros recurse prefix d. induction d as [|[cn [c|t]] rest IH]; intros Hrec memo count m.
  - apply agree_ret.
  - simpl ModuleReplacer.children_loop.
    destruct (seen c memo).
    { apply IH. intros cn' c' Hin. apply (Hrec cn' c'). now right. }
    apply agree_bind; [apply agree_apply_rules|]. intros [c1 m1].
    apply agree_bind.
    + destruct (Nat.eqb c1 0); [|apply agree_ret]. apply (Hrec cn c). now left.
    + intros [c2 m2]. apply IH. intros cn' c' Hin. apply (Hrec cn' c'). now right.
  - simpl ModuleReplacer.children_loop. apply IH.
    intros cn' c' Hin. apply (Hrec cn' c'). now right.
Qed.

Lemma agree_apply_recursively : forall m prefix,
  agree (ModuleReplacer._apply_recursively m prefix)
        (ModuleReplacer._apply_recursively m prefix).
Proof.
  induction m as [m IH] using nn_module_tree_ind. intros prefix.
  rewrite apply_recursively_eq. apply agree_children_loop. exact IH.
Qed.

Lemma agree_apply : forall root,
  agree (ModuleReplacer.apply root) (ModuleReplacer.apply root).
Proof.
  intros root. unfold ModuleReplacer.apply, ModuleReplacer.apply_counts.
  apply agree_bind.
  - apply agree_bind; [apply agree_apply_rules|]. intros [c1 m1].
    apply agree_bind; [apply agree_apply_recursively|]. intros [c2 m2].
    apply agree_ret.
  - intros [[c1 c2] m2]. apply agree_get_self. intros e1 e2 _.
    apply agree_bind; [apply agree_optional_print|]. intros _. apply agree_ret.
Qed.

(** X13. Verbosity is informational only.  Two engines with the same rule
    list return the same module, or raise the same exception, on the same
    root, and call the same filters and transformers on the same modules in
    the same order, whatever their verbosity and class name. *)
Theorem verbosity_does_not_change_the_pass :
  forall (root : nn_module) (s1 s2 : state),
    rules (self s1) = rules (self s2) ->
    fst (ModuleReplacer.apply root s1) = fst (ModuleReplacer.apply root s2) /\
    exists e1 e2,
      snd (ModuleReplacer.apply root s1) = log s1 e1 /\
      snd (ModuleReplacer.apply root s2) = log s2 e2 /\
      calls_only e1 = calls_only e2.
Proof.
  intros root s1 s2 Hs. exact (agree_apply root s1 s2 Hs).
Qed.

(** ** Properties of the whole trace *)

Section EmitsOn.
Variable P : ModuleReplacer -> list event -> Prop.
Hypothesis P_nil : forall e, P e [].
Hypothesis P_app : forall e a b, P e a -> P e b -> P e (a ++ b).
Hypothesis P_rules : forall m n fn, emits_on P (ModuleReplacer._apply_rules m n fn).

Lemma emits_on_ret : forall A (a : A), emits_on P (ret a).
Proof. intros A a s. exists []. simpl. rewrite log_nil. now split. Qed.

Lemma emits_on_bind : forall A B (c : M A) (k : A -> M B),
  emits_on P c -> (forall a, emits_on P (k a)) -> emits_on P (bind c k).
Proof.
  intros A B c k Hc Hk s. destruct (Hc s) as [e1 [H1 P1]]. unfold bind.
  destruct (c s) as [[a|e] s1]; simpl in H1; subst s1.
  - destruct (Hk a (log s e1)) as [e2 [H2 P2]]. exists (e1 ++ e2).
    rewrite H2, log_log. split; [reflexivity | now apply P_app].
  - now exists e1.
Qed.

Lemma emits_on_children_loop : forall recurse prefix d,
  (forall cn c, In (cn, IsModule c) d -> forall p, emits_on P (recurse c p)) ->
  forall memo count m,
    emits_on P (ModuleReplacer.children_loop recurse prefix d memo count m).
Proof.
  intros recurse prefix d. induction d as [|[cn [c|t]] rest IH]; intros Hrec memo count m.
  - apply emits_on_ret.
  - simpl ModuleReplacer.children_loop.
    destruct (seen c memo).
    { apply IH. intros cn' c' Hin. apply (Hrec cn' c'). now right. }
    apply emits_on_bind; [apply P_rules|]. intros [c1 m1].
    apply emits_on_bind.
    + destruct (Nat.eqb c1 0); [|apply emits_on_ret]. apply (Hrec cn c). now left.
    + intros [c2 m2]. apply IH. intros cn' c' Hin. apply (Hrec cn' c'). now right.
  - simpl ModuleReplacer.children_loop. apply IH.
    intros cn' c' Hin. apply (Hrec cn' c'). now right.
Qed.

Lemma emits_on_apply_recursively : forall m prefix,
  emits_on P (ModuleReplacer._apply_recursively m prefix).
Proof.
  induction m as [m IH] using nn_module_tree_ind. intros prefix.
  rewrite apply_recursively_eq. apply emits_on_children_loop. exact IH.
Qed.

Hypothesis P_total : forall e total, P e (total_events e total).

Lemma emits_on_apply : forall root, emits_on P (ModuleReplacer.apply root).
Proof.
  intros root. unfold ModuleReplacer.apply, ModuleReplacer.apply_counts.
  apply emits_on_bind.
  - apply emits_on_bind; [apply P_rules|]. intros [c1 m1].
    apply emits_on_bind; [apply emits_on_apply_recursively|]. intros [c2 m2].
    apply emits_on_ret.
  - intros [[c1 c2] m2] s. unfold bind, get_self.
    exists (total_events (self s) (c2 + c1)). split; [|apply P_total].
    unfold total_events. destruct (verbosity (self s) >=? 1)%Z.
    + reflexivity.
    + simpl. now rewrite log_nil.
Qed.
End EmitsOn.

(** *** Transformer calls are justified by the filters *)

Lemma rules_loop_justified : forall rs pre m n fn s,
  unmatched pre m n fn ->
  exists evs,
    snd (ModuleReplacer.rules_loop rs (List.length pre) m n fn s) = log s evs /\
    forall i m' n' fn', In (TransformerCall i m' n' fn') evs ->
      justified (pre ++ rs) i m' n' fn'.
Proof.
  induction rs as [|r rs IH]; intros pre m n fn s Hpre.
  - exists []. simpl. rewrite log_nil. split; [reflexivity|]. intros i m' n' fn' [].
  - assert (Hhere : justified (pre ++ r :: rs) (List.length pre) m n fn ->
              forall evs' i m' n' fn',
                (forall ev, In ev evs' -> is_transformer_call ev = false) ->
                In (TransformerCall i m' n' fn')
                   ([FilterCall (List.length pre) m n fn;
                     TransformerCall (List.length pre) m n fn] ++ evs') ->
                justified (pre ++ r :: rs) i m' n' fn').
    { intros Hj evs' i m' n' fn' Hnone [H|[H|H]].
      - discriminate.
      - injection H as <- <- <- <-. exact Hj.
      - apply Hnone in H. discriminate. }
    destruct (ModuleFilter.apply (ModuleReplacementRule.filter r) m n fn) as [[|]|e] eqn:Hf.
    + assert (Hj : justified (pre ++ r :: rs) (List.length pre) m n fn).
      { exists r. split; [|split].
        - rewrite nth_error_app2, Nat.sub_diag; [reflexivity | lia].
        - exact Hf.
        - intros j r' Hlt Hnth. rewrite nth_error_app1 in Hnth by exact Hlt.
          apply nth_error_In in Hnth. now apply Hpre. }
      rewrite (rules_loop_head_match _ _ _ _ _ _ _ Hf).
      destruct (ModuleTransformer.apply (ModuleReplacementRule.transformer r) m n fn)
        as [R|e].
      * eexists. split; [reflexivity|]. intros i m' n' fn'. apply (Hhere Hj).
        intros ev Hev. unfold replaced_events in Hev.
        destruct (verbosity (self s) >=? 2)%Z; [|contradiction].
        destruct Hev as [<-|[]]. reflexivity.
      * exists ([FilterCall (List.length pre) m n fn;
                 TransformerCall (List.length pre) m n fn] ++ []).
        split; [reflexivity|]. intros i m' n' fn'. apply (Hhere Hj). intros ev [].
    + assert (Hpre' : unmatched (pre ++ [r]) m n fn).
      { intros r' Hr'. apply in_app_or in Hr'. destruct Hr' as [Hr'|[<-|[]]];
          [now apply Hpre | exact Hf]. }
      destruct (IH (pre ++ [r]) m n fn (log s [FilterCall (List.length pre) m n fn]) Hpre')
        as [evs [H1 H2]].
      rewrite length_app in H1. simpl List.length in H1.
      change (r :: rs) with ([r] ++ rs). rewrite rules_loop_skip;
        [|intros r' [<-|[]]; exact Hf].
      simpl List.length. unfold filter_calls. simpl map.
      exists (FilterCall (List.length pre) m n fn :: evs).
      rewrite H1, log_log. split; [reflexivity|].
      intros i m' n' fn' [H|H]; [discriminate|].
      specialize (H2 i m' n' fn' H). now rewrite <- app_assoc in H2.
    + exists [FilterCall (List.length pre) m n fn]. split.
      * simpl. unfold bind at 1. rewrite emit_log. unfold bind at 1. unfold lift.
        now rewrite Hf.
      * intros i m' n' fn' [H|[]]. discriminate.
Qed.

Lemma apply_rules_justified : forall m n fn,
  emits_on transformer_calls_justified (ModuleReplacer._apply_rules m n fn).
Proof.
  intros m n fn s. rewrite apply_rules_eq.
  destruct (rules_loop_justified (rules (self s)) [] m n fn s) as [evs [H1 H2]].
  - intros r [].
  - exists evs. split; [exact H1 | exact H2].
Qed.

(** X15. A transformer is only ever called on a module that the filter of
    its own rule accepted under the same names and that the filters of all
    earlier rules rejected; this holds for every call of a pass, including
    passes that end in an exception. *)
Theorem transformers_called_only_on_accepted_modules :
  forall (root : nn_module) (s : state),
    exists evs,
      snd (ModuleReplacer.apply root s) = log s evs /\
      forall i m n fn, In (TransformerCall i m n fn) evs ->
        exists r,
          nth_error (rules (self s)) i = Some r /\
          ModuleFilter.apply (ModuleReplacementRule.filter r) m n fn = Ok true /\
          forall j r', j < i -> nth_error (rules (self s)) j = Some r' ->
            ModuleFilter.apply (ModuleReplacementRule.filter r') m n fn = Ok false.
Proof.
  intros root s.
  destruct (emits_on_apply transformer_calls_justified) with (root := root) (s := s)
    as [evs [H1 H2]].
  - intros e i m n fn [].
  - intros e a b Ha Hb i m n fn Hin. apply in_app_or in Hin.
    destruct Hin as [Hin|Hin]; [now apply Ha | now apply Hb].
  - apply apply_rules_justified.
  - intros e total i m n fn Hin. unfold total_events in Hin.
    destruct (verbosity e >=? 1)%Z; [|contradiction].
    destruct Hin as [Hin|[]]. discriminate.
  - exists evs. split; [exact H1 | exact H2].
Qed.

(** *** Printed lines *)

Lemma prints_app : forall a b, prints (a ++ b) = prints a + prints b.
Proof. intros a b. unfold prints. now rewrite filter_app, length_app. Qed.

Lemma prints_filter_calls : forall i k m n fn, prints (filter_calls i k m n fn) = 0.
Proof.
  intros i k; revert i. induction k as [|k IH]; intros i m n fn.
  - reflexivity.
  - rewrite filter_calls_cons. unfold prints in *. simpl. apply IH.
Qed.

Lemma prints_replaced_events : forall e m fn R,
  prints (replaced_events e m fn R) = if (verbosity e >=? 2)%Z then 1 else 0.
Proof.
  intros e m fn R. unfold replaced_events. now destruct (verbosity e >=? 2)%Z.
Qed.

Lemma prints_total_events : forall e total,
  prints (total_events e total) = if (verbosity e >=? 1)%Z then 1 else 0.
Proof.
  intros e total. unfold total_events. now destruct (verbosity e >=? 1)%Z.
Qed.

(** The lines that the rule loop prints: one for a replacement at
    verbosity 2 and above, none otherwise. *)
Lemma rules_loop_prints : forall rs i m n fn s,
  exists evs,
    snd (ModuleReplacer.rules_loop rs i m n fn s) = log s evs /\
    prints evs =
      match fst (ModuleReplacer.rules_loop rs i m n fn s) with
      | Ok (k, _) => if (verbosity (self s) >=? 2)%Z then k else 0
      | Raise _ => 0
      end.
Proof.
  induction rs as [|r rs IH]; intros i m n fn s.
  - exists []. simpl. rewrite log_nil. split; [reflexivity|].
    now destruct (verbosity (self s) >=? 2)%Z.
  - destruct (ModuleFilter.apply (ModuleReplacementRule.filter r) m n fn) as [[|]|e] eqn:Hf.
    + rewrite (rules_loop_head_match _ _ _ _ _ _ _ Hf).
      destruct (ModuleTransformer.apply (ModuleReplacementRule.transformer r) m n fn)
        as [R|e].
      * eexists. split; [reflexivity|]. simpl fst.
        rewrite prints_app, prints_replaced_events. reflexivity.
      * eexists. split; [reflexivity|]. reflexivity.
    + change (r :: rs) with ([r] ++ rs). rewrite rules_loop_skip;
        [|intros r' [<-|[]]; exact Hf].
      destruct (IH (i + List.length [r]) m n fn
                  (log s (filter_calls i (List.length [r]) m n fn))) as [evs [H1 H2]].
      exists (filter_calls i (List.length [r]) m n fn ++ evs).
      rewrite H1, log_log. split; [reflexivity|].
      rewrite prints_app, prints_filter_calls, H2. reflexivity.
    + exists [FilterCall i m n fn].
      assert (Hstep : ModuleReplacer.rules_loop (r :: rs) i m n fn s =
                      (Raise e, log s [FilterCall i m n fn])).
      { simpl. unfold bind at 1. rewrite emit_log. unfold bind at 1. unfold lift.
        now rewrite Hf. }
      rewrite Hstep. split; reflexivity.
Qed.

Lemma apply_rules_silent : forall level m n fn,
  (level <= 2)%Z ->
  emits_on (silent_below level) (ModuleReplacer._apply_rules m n fn).
Proof.
  intros level m n fn Hlevel s. rewrite apply_rules_eq.
  destruct (rules_loop_prints (rules (self s)) 0 m n fn s) as [evs [H1 H2]].
  exists evs. split; [exact H1|]. intros Hv. rewrite H2.
  destruct (fst (ModuleReplacer.rules_loop (rules (self s)) 0 m n fn s)) as [[k R]|e];
    [|reflexivity].
  destruct (Z.geb_spec (verbosity (self s)) 2); [lia | reflexivity].
Qed.

Lemma silent_below_nil : forall level e, silent_below level e [].
Proof. intros level e _. reflexivity. Qed.

Lemma silent_below_app : forall level e a b,
  silent_below level e a -> silent_below level e b -> silent_below level e (a ++ b).
Proof.
  intros level e a b Ha Hb Hv. rewrite prints_app, (Ha Hv), (Hb Hv). reflexivity.
Qed.

Section Measure.
Variable f : list event -> nat.
Variable G : ModuleReplacer -> Prop.
Hypothesis f_nil : f [] = 0.
Hypothesis f_app : forall a b, f (a ++ b) = f a + f b.
Hypothesis f_rules : forall rs i m n fn s r s',
  G (self s) ->
  ModuleReplacer.rules_loop rs i m n fn s = (r, s') ->
  exists evs, s' = log s evs /\ forall k m', r = Ok (k, m') -> k = f evs.

Lemma measure_children_loop : forall recurse prefix d,
  (forall cn c, In (cn, IsModule c) d -> forall p s r s',
     G (self s) -> recurse c p s = (r, s') ->
     exists evs, s' = log s evs /\ forall k m', r = Ok (k, m') -> k = f evs) ->
  forall memo count m s r s',
    G (self s) ->
    ModuleReplacer.children_loop recurse prefix d memo count m s = (r, s') ->
    exists evs, s' = log s evs /\ forall k m', r = Ok (k, m') -> k = count + f evs.
Proof.
  intros recurse prefix d. induction d as [|[cn [c|t]] rest IH];
    intros Hrec memo count m s r s' HG H.
  - simpl in H. injection H as <- <-. exists []. rewrite log_nil.
    split; [reflexivity|]. intros k m' Hk. injection Hk as <- _. rewrite f_nil. lia.
  - assert (Hrest : forall cn' c', In (cn', IsModule c') rest -> forall p s r s',
              G (self s) -> recurse c' p s = (r, s') ->
              exists evs, s' = log s evs /\ forall k m', r = Ok (k, m') -> k = f evs).
    { intros cn' c' Hin. apply (Hrec cn' c'). now right. }
    simpl ModuleReplacer.children_loop in H.
    destruct (seen c memo); [exact (IH Hrest _ _ _ _ _ _ HG H)|].
    unfold bind at 1 in H.
    rewrite apply_rules_eq in H.
    destruct (ModuleReplacer.rules_loop (rules (self s)) 0 c cn
                (String.append prefix cn) s) as [[[c1 m1]|e] s1] eqn:E1.
    + destruct (f_rules _ _ _ _ _ _ _ _ HG E1) as [e1 [-> Hc1]].
      specialize (Hc1 c1 m1 eq_refl).
      unfold bind at 1 in H. destruct (Nat.eqb c1 0) eqn:E0.
      * apply Nat.eqb_eq in E0.
        destruct (recurse c (String.append (String.append prefix cn) ".") (log s e1))
          as [[[c2 m2]|e] s2] eqn:E2.
        -- destruct (Hrec cn c (or_introl eq_refl) _ (log s e1) _ _ HG E2)
             as [e2 [-> Hc2]].
           specialize (Hc2 c2 m2 eq_refl).
           destruct (IH Hrest _ _ _ (log (log s e1) e2) _ _ HG H) as [e3 [-> Hc3]].
           exists (e1 ++ e2 ++ e3). rewrite !log_log. split; [reflexivity|].
           intros k m' Hk. rewrite (Hc3 k m' Hk), !f_app. lia.
        -- destruct (Hrec cn c (or_introl eq_refl) _ (log s e1) _ _ HG E2)
             as [e2 [-> _]].
           injection H as <- <-. exists (e1 ++ e2). rewrite log_log.
           split; [reflexivity | discriminate].
      * unfold ret at 1 in H.
        destruct (IH Hrest _ _ _ (log s e1) _ _ HG H) as [e3 [-> Hc3]].
        exists (e1 ++ e3). rewrite log_log. split; [reflexivity|].
        intros k m' Hk. rewrite (Hc3 k m' Hk), f_app. lia.
    + destruct (f_rules _ _ _ _ _ _ _ _ HG E1) as [e1 [-> _]].
      injection H as <- <-. exists e1. split; [reflexivity | discriminate].
  - simpl ModuleReplacer.children_loop in H.
    apply IH with (memo := memo) (count := count) (m := m) (r := r);
      [|exact HG | exact H].
    intros cn' c' Hin. apply (Hrec cn' c'). now right.
Qed.

Lemma measure_apply_recursively : forall m prefix s r s',
  G (self s) ->
  ModuleReplacer._apply_recursively m prefix s = (r, s') ->
  exists evs, s' = log s evs /\ forall k m', r = Ok (k, m') -> k = f evs.
Proof.
  induction m as [m IH] using nn_module_tree_ind. intros prefix s r s' HG H.
  rewrite apply_recursively_eq in H.
  destruct (measure_children_loop ModuleReplacer._apply_recursively prefix (_modules m) IH
              [] 0 m s r s' HG H) as [evs [H1 H2]].
  exists evs. split; [exact H1|]. intros k m' Hk. now rewrite (H2 k m' Hk).
Qed.

Lemma measure_apply_counts : forall root s root_count count module s',
  G (self s) ->
  ModuleReplacer.apply_counts root s = (Ok (root_count, count, module), s') ->
  exists evs, s' = log s evs /\ count + root_count = f evs.
Proof.
  intros root s rc c m s' HG. unfold ModuleReplacer.apply_counts, bind.
  rewrite apply_rules_eq.
  destruct (ModuleReplacer.rules_loop (rules (self s)) 0 root "" "" s)
    as [[[c1 m1]|e] s1] eqn:E1; [|discriminate].
  destruct (f_rules _ _ _ _ _ _ _ _ HG E1) as [e1 [-> Hc1]].
  destruct (ModuleReplacer._apply_recursively m1 "" (log s e1))
    as [[[c2 m2]|e] s2] eqn:E2; [|discriminate].
  destruct (measure_apply_recursively _ _ (log s e1) _ _ HG E2) as [e2 [-> Hc2]].
  intros H. injection H as <- <- <- <-.
  exists (e1 ++ e2). rewrite log_log. split; [reflexivity|].
  rewrite f_app, <- (Hc1 c1 m1 eq_refl), <- (Hc2 c2 m2 eq_refl). lia.
Qed.
End Measure.

Lemma apply_counts_silent : forall root,
  emits_on (silent_below 2) (ModuleReplacer.apply_counts root).
Proof.
  intros root. unfold ModuleReplacer.apply_counts.
  assert (Hrules : forall m n fn,
            emits_on (silent_below 2) (ModuleReplacer._apply_rules m n fn)).
  { intros m n fn. apply apply_rules_silent. lia. }
  apply emits_on_bind; [apply silent_below_app | apply Hrules |]. intros [c1 m1].
  apply emits_on_bind; [apply silent_below_app | |].
  - apply emits_on_apply_recursively;
      [apply silent_below_nil | apply silent_below_app | exact Hrules].
  - intros [c2 m2]. apply emits_on_ret. apply silent_below_nil.
Qed.

(** X14. What a pass prints.  Below verbosity 1 nothing is printed, also
    when the pass ends in an exception.  A pass that returns prints one line
    per counted replacement when the verbosity is at least 2, and one
    summary line when it is at least 1: nothing else. *)
Theorem printed_lines : forall (root : nn_module) (s : state),
  exists evs,
    snd (ModuleReplacer.apply root s) = log s evs /\
    ((verbosity (self s) < 1)%Z -> prints evs = 0) /\
    forall root_count count module,
      fst (ModuleReplacer.apply_counts root s) = Ok (root_count, count, module) ->
      prints evs =
        (if (verbosity (self s) >=? 2)%Z then count + root_count else 0)
        + (if (verbosity (self s) >=? 1)%Z then 1 else 0).
Proof.
  intros root s.
  destruct (emits_on_apply (silent_below 1)) with (root := root) (s := s)
    as [evs [H1 H2]].
  - apply silent_below_nil.
  - apply silent_below_app.
  - intros m n fn. apply apply_rules_silent. lia.
  - intros e total Hv. rewrite prints_total_events.
    destruct (Z.geb_spec (verbosity e) 1); [lia | reflexivity].
  - exists evs. split; [exact H1|]. split; [exact H2|].
    intros rc c m Hc.
    destruct (ModuleReplacer.apply_counts root s) as [r s'] eqn:E. simpl in Hc. subst r.
    destruct (apply_counts_silent root s) as [e0 [He0 Hsilent]].
    rewrite E in He0. simpl in He0. subst s'.
    rewrite (apply_after_counts _ _ _ _ _ _ E) in H1. simpl in H1.
    rewrite log_log in H1. apply log_inj in H1. subst evs.
    rewrite prints_app, prints_total_events. f_equal.
    destruct (Z.geb_spec (verbosity (self s)) 2) as [Hge|Hlt].
    + destruct (measure_apply_counts prints (fun e => (2 <= verbosity e)%Z))
        with (root := root) (s := s) (root_count := rc) (count := c) (module := m)
             (s' := log s e0) as [e0' [He0' Hsum]].
      * reflexivity.
      * apply prints_app.
      * intros rs i m0 n fn s0 r s0' HG Hrun.
        destruct (rules_loop_prints rs i m0 n fn s0) as [ev [Hev Hp]].
        rewrite Hrun in Hev, Hp. simpl in Hev, Hp. exists ev. split; [exact Hev|].
        intros k m' ->. rewrite Hp.
        destruct (Z.geb_spec (verbosity (self s0)) 2); [reflexivity | lia].
      * exact Hge.
      * exact E.
      * apply log_inj in He0'. subst e0'. now rewrite Hsum.
    + now apply Hsilent.
Qed.

(** ** The children after a pass *)








(** ** The root filter *)

Lemma dotted_empty : forall p, dotted p = "" -> p = [] \/ p = [""].
Proof.
  intros [|a [|b rest]] H.
  - now left.
  - right. unfold dotted in H. simpl in H. now subst a.
  - exfalso. unfold dotted in H. simpl in H. destruct a; discriminate.
Qed.

(** X16. During a pass the full name is empty only for the root and for a
    direct child of the walked root whose name is the empty string.  So
    ModelFilter accepts the root and, where child names are not empty,
    nothing else. *)
Theorem model_filter_accepts_only_the_root :
  forall (root : nn_module) (s : state),
    exists evs,
      snd (ModuleReplacer.apply root s) = log s evs /\
      forall ev m n fn,
        In ev evs -> call_args ev = Some (m, n, fn) ->
        ModelFilter.apply m n fn = Ok true ->
        n = "" /\ fn = "" /\
        (m = root \/
         exists c R,
           fst (ModuleReplacer._apply_rules root "" "" s) = Ok (c, R) /\
           In ("", IsModule m) (_modules R)).
Proof.
  intros root s. destruct (apply_paths root s) as [evs [H1 H2]].
  exists evs. split; [exact H1|].
  intros ev m n fn Hin Hargs Hfilter.
  unfold ModelFilter.apply in Hfilter. injection Hfilter as Hfn.
  apply String.eqb_eq in Hfn. subst fn.
  destruct (H2 ev m n "" Hin Hargs) as [[-> [-> _]]|[c [R [p [Hr [Hnode [-> Hp]]]]]]].
  - split; [reflexivity|]. split; [reflexivity | now left].
  - symmetry in Hp. apply dotted_empty in Hp. destruct Hp as [->| ->].
    + inversion Hnode.
    + split; [reflexivity|]. split; [reflexivity|]. right. exists c, R.
      split; [exact Hr|]. inversion Hnode as [? ? ? Hc|? ? ? ? ? Hc Hbelow]; subst.
      * exact (in_named_children _ _ _ Hc).
      * inversion Hbelow.
Qed.

(** ** The presets *)

Lemma apply_ok_inv : forall root s module,
  fst (ModuleReplacer.apply root s) = Ok module ->
  exists root_count count,
    fst (ModuleReplacer.apply_counts root s) = Ok (root_count, count, module).
Proof.
  intros root s m H. unfold ModuleReplacer.apply in H.
  apply bind_ok_inv in H. destruct H as [[[rc c] m2] [s1 [E H]]].
  exists rc, c. rewrite E. simpl. f_equal. f_equal.
  unfold bind, get_self in H.
  destruct (verbosity (self s1) >=? 1)%Z; simpl in H; now injection H as ->.
Qed.

Lemma preset_never_raises :
  forall (P BnKwargs : Type)
         (BSConvS : Conv2dAttrs -> P -> bool -> BnKwargs -> result nn_module)
         (ks : option (list pyval)) (p : P) (b : bool) (kw : BnKwargs),
    (forall conv, exists R, BSConvS conv p b kw = Ok R) ->
    never_raise [ModuleReplacementRule.__init__ (Conv2dFilter.new ks)
                   (BSConvSTransformer.new BSConvS p b kw);
                 ModuleReplacementRule.__init__ ModelFilter.new
                   RegularizationMethodTransformer.new].
Proof.
  intros P BnKwargs BSConvS ks p b kw Hctor r [<-|[<-|[]]] m n fn.
  - split; [exact (conv2d_filter_answers ks m n fn)|].
    intros Hm. apply (conv2d_filter_true ks m n fn) in Hm.
    destruct Hm as [conv Hconv].
    simpl. unfold BSConvSTransformer.apply.
    rewrite (read_conv_attrs_conv2d _ _ Hconv). apply Hctor.
  - split; eexists; reflexivity.
Qed.

(** X17. The BSConvS preset on a model that its convolution filter does not
    match, with a constructor that does not raise: [apply] returns the root
    object it was given, with the same child names, and [reg_loss] is
    callable on it. *)
Theorem bsconvs_preset_attaches_reg_loss :
  forall (P BnKwargs : Type)
         (BSConvS : Conv2dAttrs -> P -> bool -> BnKwargs -> result nn_module)
         (kernel_sizes : option (list pyval)) (p : P) (with_bn_relu : bool)
         (bn_kwargs : BnKwargs) (verbosity : Z)
         (e : ModuleReplacer) (root : nn_module) (s : state),
    BSConvS_Replacer.__init__ BSConvS kernel_sizes p with_bn_relu bn_kwargs verbosity
      = Ok e ->
    self s = e ->
    Conv2dFilter.apply (Conv2dFilter.__init__ kernel_sizes) root "" "" = Ok false ->
    (forall conv, exists R, BSConvS conv p with_bn_relu bn_kwargs = Ok R) ->
    exists module,
      fst (ModuleReplacer.apply root s) = Ok module /\
      ident module = ident root /\
      type_name module = type_name root /\
      keys (_modules module) = keys (_modules root) /\
      has_reg_loss module = true /\
      forall host_add,
        RegularizationMethodTransformer.call_reg_loss host_add module
        = RegularizationMethodTransformer.reg_loss host_add module.
Proof.
  intros P BnKwargs BSConvS ks p b kw v e root s Hinit Hs Hroot Hctor.
  set (rule1 := ModuleReplacementRule.__init__ (Conv2dFilter.new ks)
                  (BSConvSTransformer.new BSConvS p b kw)).
  set (rule2 := ModuleReplacementRule.__init__ ModelFilter.new
                  RegularizationMethodTransformer.new).
  assert (He : rules e = [rule1] ++ rule2 :: []).
  { injection Hinit as <-. reflexivity. }
  assert (Hsafe : never_raise (rules e)).
  { rewrite He. now apply preset_never_raises. }
  destruct (apply_returns e root Hsafe s Hs) as [m Hm].
  exists m. split; [exact Hm|].
  destruct (apply_ok_inv root s m Hm) as [rc [c Hc]].
  assert (Hpre : unmatched [rule1] root "" "").
  { intros r [<-|[]]. exact Hroot. }
  assert (Hrules : rules (self s) = [rule1] ++ rule2 :: []) by now rewrite Hs.
  destruct (root_match_counts s root [rule1] rule2 []
              (set_has_reg_loss root true) Hrules Hpre eq_refl eq_refl)
    as [_ [H2 H3]].
  destruct (H3 rc c m Hc) as [_ Hsame].
  assert (Hkeys : keys (_modules m) = keys (_modules root)).
  { rewrite H2 in Hc.
    match type of Hc with
    | context [fst (ModuleReplacer._apply_recursively ?R ?px ?st)] =>
        destruct (fst (ModuleReplacer._apply_recursively R px st))
          as [[c' m']|err] eqn:Hb
    end; [|simpl in Hc; discriminate].
    simpl in Hc. injection Hc as _ _ <-.
    exact (apply_recursively_keys _ _ _ _ _ Hb). }
  apply same_object_fields in Hsame. destruct Hsame as [Hi [Ht [_ [_ Hr]]]].
  split; [exact Hi|]. split; [exact Ht|]. split; [exact Hkeys|]. split; [exact Hr|].
  intros host_add. unfold RegularizationMethodTransformer.call_reg_loss.
  simpl in Hr. now rewrite Hr.
Qed.

(** X18. The BSConvS preset on a root that is itself an accepted
    convolution: the first rule replaces the root, the root filter is not
    asked about it, and the module returned is the object that the
    constructor built, so the pass attaches no [reg_loss] to it. *)
Theorem bsconvs_preset_on_convolution_root :
  forall (P BnKwargs : Type)
         (BSConvS : Conv2dAttrs -> P -> bool -> BnKwargs -> result nn_module)
         (kernel_sizes : option (list pyval)) (p : P) (with_bn_relu : bool)
         (bn_kwargs : BnKwargs) (verbosity : Z)
         (e : ModuleReplacer) (root : nn_module) (s : state)
         (conv : Conv2dAttrs) (built : nn_module),
    BSConvS_Replacer.__init__ BSConvS kernel_sizes p with_bn_relu bn_kwargs verbosity
      = Ok e ->
    self s = e ->
    Conv2dFilter.apply (Conv2dFilter.__init__ kernel_sizes) root "" "" = Ok true ->
    conv2d root = Some conv ->
    BSConvS conv p with_bn_relu bn_kwargs = Ok built ->
    ModuleReplacer._apply_rules root "" "" s =
      (Ok (1, built),
       log s ([FilterCall 0 root "" ""; TransformerCall 0 root "" ""]
              ++ replaced_events e root "" built)) /\
    forall module,
      fst (ModuleReplacer.apply root s) = Ok module ->
      ident module = ident built /\
      type_name module = type_name built /\
      has_reg_loss module = has_reg_loss built.
Proof.
  intros P BnKwargs BSConvS ks p b kw v e root s conv built Hinit Hs Hroot Hconv Hbuilt.
  set (rule1 := ModuleReplacementRule.__init__ (Conv2dFilter.new ks)
                  (BSConvSTransformer.new BSConvS p b kw)).
  set (rule2 := ModuleReplacementRule.__init__ ModelFilter.new
                  RegularizationMethodTransformer.new).
  assert (Hrules : rules (self s) = [] ++ rule1 :: [rule2]).
  { rewrite Hs. injection Hinit as <-. reflexivity. }
  assert (Ht : ModuleTransformer.apply (ModuleReplacementRule.transformer rule1)
                 root "" "" = Ok built).
  { simpl. unfold BSConvSTransformer.apply.
    rewrite (read_conv_attrs_conv2d _ _ Hconv). exact Hbuilt. }
  destruct (root_match_counts s root [] rule1 [rule2] built Hrules)
    as [H1 [_ H3]]; [intros r [] | exact Hroot | exact Ht |].
  split.
  - rewrite H1, Hs. reflexivity.
  - intros m Hm. destruct (apply_ok_inv root s m Hm) as [rc [c Hc]].
    destruct (H3 rc c m Hc) as [_ Hsame].
    apply same_object_fields in Hsame. destruct Hsame as [Hi [Htn [_ [_ Hr]]]].
    now repeat split.
Qed.

Lemma transformer_calls_justified_app : forall e a b,
  transformer_calls_justified e a -> transformer_calls_justified e b ->
  transformer_calls_justified e (a ++ b).
Proof.
  intros e a b Ha Hb i m n fn Hin. apply in_app_or in Hin.
  destruct Hin as [Hin|Hin]; [now apply Ha | now apply Hb].
Qed.

Lemma apply_justified : forall root,
  emits_on transformer_calls_justified (ModuleReplacer.apply root).
Proof.
  intros root. apply emits_on_apply.
  - intros e i m n fn [].
  - apply transformer_calls_justified_app.
  - apply apply_rules_justified.
  - intros e total i m n fn Hin. unfold total_events in Hin.
    destruct (verbosity e >=? 1)%Z; [|contradiction].
    destruct Hin as [Hin|[]]. discriminate.
Qed.

(** X19. The BSConvU preset only transforms accepted convolutions: every
    transformer call of a pass is by the single rule, on a [Conv2d] whose
    kernel size is a normalised entry of the allowlist (any [Conv2d] when
    there is no allowlist). *)
Theorem bsconvu_preset_transforms_only_allowed_convolutions :
  forall (BSConvU : Conv2dAttrs -> result nn_module)
         (kernel_sizes : option (list pyval)) (verbosity : Z)
         (e : ModuleReplacer) (root : nn_module) (s : state),
    BSConvU_Replacer.__init__ BSConvU kernel_sizes verbosity = Ok e ->
    self s = e ->
    exists evs,
      snd (ModuleReplacer.apply root s) = log s evs /\
      forall i m n fn, In (TransformerCall i m n fn) evs ->
        i = 0 /\
        exists conv, conv2d m = Some conv /\
          (kernel_sizes = None \/
           exists l, kernel_sizes = Some l /\ In (kernel_size conv) (normalised l)).
Proof.
  intros BSConvU ks v e root s Hinit Hs.
  destruct (apply_justified root s) as [evs [H1 H2]].
  exists evs. split; [exact H1|].
  intros i m n fn Hin. destruct (H2 i m n fn Hin) as [r [Hnth [Hf _]]].
  rewrite Hs in Hnth. injection Hinit as <-. simpl in Hnth.
  destruct i as [|i]; [|now destruct i].
  injection Hnth as <-. split; [reflexivity|].
  simpl in Hf. unfold Conv2dFilter.apply in Hf.
  destruct (conv2d m) as [conv|]; [|discriminate].
  exists conv. split; [reflexivity|].
  destruct ks as [l|]; [|now left]. right. exists l. split; [reflexivity|].
  simpl in Hf. destruct (py_in (kernel_size conv) (map forceTwoTuple l)) eqn:Hpy;
    [|discriminate].
  now apply py_in_iff in Hpy.
Qed.

(** * The further properties on the example objects *)

Lemma allowlist_as_set_witness :
  Conv2dFilter.apply
    (Conv2dFilter.__init__ (Some [PyInt 3; PyInt 5])) (example_conv 1 5 5) "c" "c"
  = Conv2dFilter.apply
      (Conv2dFilter.__init__
         (Some [PyTuple [PyInt 5; PyInt 5]; PyInt 3; PyList [PyInt 3; PyInt 3]]))
      (example_conv 1 5 5) "c" "c".
Proof.
  apply conv2d_filter_allowlist_as_set.
  intros k. simpl. tauto.
Defined.

Lemma transformable_witness :
  BSConvSTransformer.apply example_BSConvS
    (BSConvSTransformer.__init__ float_0_25 true tt) (example_conv_transpose 7) "up" "up"
    = Ok (example_regularized 100 (LossFloat float_2_5)) /\
  Conv2dToBSConvUTransformer.apply example_BSConvU (example_conv_transpose 7) "up" "up"
    = Ok (example_container 101 "BSConvU" []) /\
  Conv2dToBSConvUTransformer.apply example_BSConvU (example_container 8 "ReLU" [])
    "act" "act"
    = Raise (AttributeError "in_channels").
Proof.
  destruct (accepted_modules_are_transformable spec_float unit example_BSConvU
              example_BSConvS float_0_25 true tt None (example_conv_transpose 7)
              "up" "up") as [_ Hup].
  destruct (accepted_modules_are_transformable spec_float unit example_BSConvU
              example_BSConvS float_0_25 true tt None (example_container 8 "ReLU" [])
              "act" "act") as [_ Hact].
  specialize (Hup eq_refl). specialize (Hact eq_refl).
  simpl in Hup, Hact. destruct Hup as [HU HS]. destruct Hact as [a [Ha [_ Hname]]].
  split; [exact HS|]. split; [exact HU|].
  rewrite Ha, (Hname eq_refl). reflexivity.
Defined.

Lemma reg_loss_sum_witness :
  RegularizationMethodTransformer.reg_loss example_host_add example_two_losses
    = Ok (LossFloat float_2_75) /\
  RegularizationMethodTransformer.reg_loss example_host_add example_registered_twice
    = Ok (LossFloat float_2_5).
Proof.
  split.
  - rewrite (reg_loss_sums_floats example_host_add example_two_losses).
    + reflexivity.
    + intros x Hx. simpl in Hx.
      destruct Hx as [<-|[<-|[<-|[<-|[]]]]];
        try (left; left; reflexivity); right; eexists; reflexivity.
  - rewrite (reg_loss_sums_floats example_host_add example_registered_twice).
    + reflexivity.
    + intros x Hx. change (modules example_registered_twice)
        with [example_registered_twice;
              example_regularized 2 (LossFloat float_2_5)] in Hx.
      destruct Hx as [<-|[<-|[]]];
        [left; left; reflexivity | right; eexists; reflexivity].
Defined.

Lemma reg_loss_error_witness :
  RegularizationMethodTransformer.reg_loss example_host_add example_failing_net
    = Raise (UserError 7).
Proof.
  destruct (reg_loss_propagates_errors example_host_add example_failing_net
              [example_failing_net; example_regularized 2 (LossFloat float_2_5)]
              (example_failing 3 (UserError 7))
              [example_regularized 4 (LossFloat float_0_25)] []
              (UserError 7)) as [H _].
  - reflexivity.
  - intros x [<-|[<-|[]]]; [left; left; reflexivity | right; eexists; reflexivity].
  - reflexivity.
  - reflexivity.
  - exact H.
Defined.

Lemma never_promotes_witness :
  RegularizationMethodTransformer.reg_loss_action (LossFloat float_2_5)
    (_reg_loss (example_regularized 4 (LossFloat float_0_25))) <> Promote "cuda:0".
Proof.
  destruct (reg_loss_never_promotes example_host_add example_two_losses
              [example_two_losses; example_regularized 2 (LossFloat float_2_5);
               example_conv 3 3 3]
              (example_regularized 4 (LossFloat float_0_25)) []
              (LossFloat float_2_5)) as [_ H].
  - intros a b v Hv. discriminate Hv.
  - reflexivity.
  - reflexivity.
  - exact (H "cuda:0").
Defined.

Lemma add_rule_calls_witness :
  add_each [[ArgFilter ModelFilter.new;
             ArgTransformer RegularizationMethodTransformer.new];
            [ArgRule example_root_rule]]
    (start (ModuleReplacer.__init__ 0))
  = (Ok tt,
     with_rules (start (ModuleReplacer.__init__ 0))
       [example_root_rule; example_root_rule]).
Proof.
  destruct (add_rule_calls_compose
              [[ArgFilter ModelFilter.new;
                ArgTransformer RegularizationMethodTransformer.new];
               [ArgRule example_root_rule]]
              [example_root_rule; example_root_rule]
              (start (ModuleReplacer.__init__ 0))) as [H _].
  - reflexivity.
  - exact H.
Defined.


Lemma child_names_witness :
  keys (_modules (example_container 1 "Net"
                    [("conv3", IsModule (example_container 101 "BSConvU" []));
                     ("conv7", IsModule (example_conv 3 7 7))]))
  = keys (_modules example_two_convs).
Proof.
  destruct (traversal_keeps_child_names example_two_convs ""
              (start example_bsconvu_engine) 1
              (example_container 1 "Net"
                 [("conv3", IsModule (example_container 101 "BSConvU" []));
                  ("conv7", IsModule (example_conv 3 7 7))]))
    as [H _].
  - reflexivity.
  - exact H.
Defined.

Lemma verbosity_witness :
  fst (ModuleReplacer.apply example_net (start example_idle_engine))
  = fst (ModuleReplacer.apply example_net (start example_quiet_engine)).
Proof.
  destruct (verbosity_does_not_change_the_pass example_net
              (start example_idle_engine) (start example_quiet_engine)) as [H _].
  - reflexivity.
  - exact H.
Defined.

Lemma preset_reg_loss_witness :
  exists module,
    fst (ModuleReplacer.apply example_net (start example_preset)) = Ok module /\
    ident module = ident example_net /\
    has_reg_loss module = true.
Proof.
  destruct (bsconvs_preset_attaches_reg_loss spec_float unit example_BSConvS
              default_kernel_sizes float_0_25 true tt 1%Z
              example_preset example_net (start example_preset))
    as [m [H1 [H2 [_ [_ [H5 _]]]]]].
  - reflexivity.
  - reflexivity.
  - reflexivity.
  - intros conv. eexists. reflexivity.
  - exists m. now repeat split.
Defined.

Lemma preset_convolution_root_witness :
  fst (ModuleReplacer._apply_rules (example_conv 1 3 3) "" "" (start example_preset))
  = Ok (1, example_regularized 100 (LossFloat float_2_5)).
Proof.
  destruct (bsconvs_preset_on_convolution_root spec_float unit example_BSConvS
              default_kernel_sizes float_0_25 true tt 1%Z
              example_preset (example_conv 1 3 3) (start example_preset)
              (conv_attrs 3 3) (example_regularized 100 (LossFloat float_2_5)))
    as [H _].
  - reflexivity.
  - reflexivity.
  - reflexivity.
  - reflexivity.
  - reflexivity.
  - now rewrite H.
Defined.

Lemma bsconvu_preset_witness :
  exists evs,
    snd (ModuleReplacer.apply example_two_convs (start example_bsconvu_engine))
      = log (start example_bsconvu_engine) evs /\
    forall i m n fn, In (TransformerCall i m n fn) evs -> i = 0.
Proof.
  destruct (bsconvu_preset_transforms_only_allowed_convolutions example_BSConvU
              default_kernel_sizes 0%Z example_bsconvu_engine example_two_convs
              (start example_bsconvu_engine)) as [evs [H1 H2]].
  - reflexivity.
  - reflexivity.
  - exists evs. split; [exact H1|]. intros i m n fn Hin.
    now destruct (H2 i m n fn Hin).
Defined.
